(** * typedregexp: matching regular expressions into structs

    A shallow embedding of [typedregexp.go].  The package compiles a
    [text/template] pattern together with a struct of per-field regular
    expressions into one composite [regexp.Regexp], remembers for every field
    the submatch positions that carry its name, and at match time writes
    the first non-empty submatch of every field into a caller-owned struct
    through [reflect].

    The two standard-library collaborators ([regexp] and [text/template]) are
    interfaces here ([RegexpEngine], [TemplateEngine]); [reflect] is modelled
    by explicit type descriptors, values and a heap of struct cells.  The
    properties are proved for every instance of the interfaces; a reference
    instance of each ([RE2], [Tmpl]) runs the tests and examples of the
    package.  Lengths and indices are natural numbers: they never leave the
    range of [int]. *)

From Stdlib Require Import ZArith Ascii.
From stdpp Require Import gmap strings list fin_maps pretty sorting.

Local Open Scope string_scope.
Local Open Scope list_scope.
Local Open Scope nat_scope.

(** ** Go types and values as [reflect] sees them *)

(** Kinds of the struct fields the package distinguishes: it only ever asks
    whether a field is a [string]; [FTInt] stands for a field of another kind
    (the tests use [int]). *)
Inductive FieldType := FTString | FTInt.

Record StructField := { Name : string; Type_ : FieldType }.

(** A struct type.  Defined types are identical exactly when they are the
    same declaration, which the qualified [type_name] stands for; two types
    with equal [type_fields] and different names are structurally identical
    but distinct. *)
Record StructType := { type_name : string; type_fields : list StructField }.

Inductive GoType :=
| TString
| TInt
| TStruct (st : StructType)
| TPtr (elem : GoType)
| TSlice (elem : GoType).

Inductive Kind := String_ | Int_ | Struct | Ptr | Slice.

#[global] Instance FieldType_eq_dec : EqDecision FieldType.
Proof. solve_decision. Defined.
#[global] Instance StructField_eq_dec : EqDecision StructField.
Proof. solve_decision. Defined.
#[global] Instance StructType_eq_dec : EqDecision StructType.
Proof. solve_decision. Defined.
#[global] Instance GoType_eq_dec : EqDecision GoType.
Proof. solve_decision. Defined.
#[global] Instance Kind_eq_dec : EqDecision Kind.
Proof. solve_decision. Defined.

Definition type_Kind (t : GoType) : Kind :=
  match t with
  | TString => String_
  | TInt => Int_
  | TStruct _ => Struct
  | TPtr _ => Ptr
  | TSlice _ => Slice
  end.

(** [reflect.PtrTo] and [reflect.SliceOf]. *)
Definition PtrTo (t : GoType) : GoType := TPtr t.
Definition SliceOf (t : GoType) : GoType := TSlice t.

(** What [%s] prints for a [reflect.Type]. *)
Fixpoint type_String (t : GoType) : string :=
  match t with
  | TString => "string"
  | TInt => "int"
  | TStruct st => type_name st
  | TPtr e => "*" +:+ type_String e
  | TSlice e => "[]" +:+ type_String e
  end.

Definition fieldType_GoType (ft : FieldType) : GoType :=
  match ft with FTString => TString | FTInt => TInt end.

(** Addresses of struct variables. *)
Definition loc := nat.

Inductive FieldVal := FString (s : string) | FInt (z : Z).

#[global] Instance FieldVal_eq_dec : EqDecision FieldVal.
Proof. solve_decision. Defined.

Definition fieldVal_Kind (v : FieldVal) : Kind :=
  match v with FString _ => String_ | FInt _ => Int_ end.

(** An element of a slice: [[]T] holds addressable struct variables,
    [[]*T] holds pointers (nil or the address of a struct variable). *)
Inductive Elem :=
| EStruct (cell : loc)
| EPtr (p : option loc)
| EOther.

(** A value handed over as a non-nil [interface{}]. *)
Inductive Value :=
| VString (s : string)
| VInt (z : Z)
| VStruct (t : StructType) (fields : list FieldVal)
| VPtr (elem : GoType) (p : option loc)
| VSlice (elem : GoType) (elems : list Elem).

(** [reflect.TypeOf]. *)
Definition reflect_TypeOf (v : Value) : GoType :=
  match v with
  | VString _ => TString
  | VInt _ => TInt
  | VStruct t _ => TStruct t
  | VPtr e _ => TPtr e
  | VSlice e _ => TSlice e
  end.

(** The struct variables reachable through pointers and slices: every cell
    holds the field values of one struct, in declaration order. *)
Abbreviation Heap := (gmap loc (list FieldVal)).

(** A cell holds a value of struct type [t]. *)
Definition cell_has_type (t : StructType) (cell : list FieldVal) : Prop :=
  Forall2 (λ f v, fieldVal_Kind v = type_Kind (fieldType_GoType (Type_ f)))
          (type_fields t) cell.

(** A field is exported when its name starts with an upper-case letter;
    [reflect] refuses to set a field that is not. *)
Definition is_upper (c : ascii) : bool :=
  let n := nat_of_ascii c in (65 <=? n) && (n <=? 90).

Definition exported (name : string) : bool :=
  match name with
  | EmptyString => false
  | String c _ => is_upper c
  end.

(** ** Results and panics *)

(** [(value, error)] returns. *)
Inductive result (A : Type) :=
| Ok (a : A)
| Err (msg : string).
Arguments Ok {A} a.
Arguments Err {A} msg.

Definition result_bind {A B} (r : result A) (f : A → result B) : result B :=
  match r with
  | Ok a => f a
  | Err e => Err e
  end.

(** A call either returns or panics; in both cases the heap it leaves behind
    is the heap at that moment. *)
Inductive outcome (A : Type) :=
| Returned (a : A)
| Panicked (msg : string).
Arguments Returned {A} a.
Arguments Panicked {A} msg.

Definition M (A : Type) : Type := Heap → outcome A * Heap.

Definition ret {A} (a : A) : M A := λ h, (Returned a, h).
Definition panic {A} (msg : string) : M A := λ h, (Panicked msg, h).
Definition bind {A B} (m : M A) (f : A → M B) : M B :=
  λ h, match m h with
       | (Returned a, h') => f a h'
       | (Panicked msg, h') => (Panicked msg, h')
       end.

Declare Scope go_scope.
Delimit Scope go_scope with go.
Notation "'let*' x := m 'in' k" := (bind m (λ x, k))
  (at level 10, x name, m at level 100, k at level 200) : go_scope.
Notation "'run' m 'in' k" := (bind m (λ _, k))
  (at level 10, m at level 100, k at level 200) : go_scope.

(** ** The collaborators *)

(** The part of package [regexp] that is used.  [FindStringSubmatch] returns
    nil ([[]]) when there is no match and otherwise one string per
    subexpression, the whole match first; a group that did not take part is
    the empty string.  [FindAllStringSubmatch s n] returns at most [n]
    successive matches when [n >= 0] and all of them when [n < 0]. *)
Class RegexpEngine := {
  Regexp : Type;
  regexp_Compile : string → result Regexp;
  SubexpNames : Regexp → list string;
  FindStringSubmatch : Regexp → string → list string;
  FindAllStringSubmatch : Regexp → string → Z → list (list string);
  FindStringSubmatch_length : ∀ re s,
    FindStringSubmatch re s = [] ∨
    length (FindStringSubmatch re s) = length (SubexpNames re);
  FindAllStringSubmatch_limit : ∀ re s n,
    (0 ≤ n)%Z →
    FindAllStringSubmatch re s n =
      take (Z.to_nat n) (FindAllStringSubmatch re s (-1));
}.

(** The part of package [text/template] that is used: [Parse] and
    [Execute] against a struct value. *)
Class TemplateEngine := {
  Template : Type;
  template_Parse : string → result Template;
  template_Execute : Template → Value → result string;
}.

(** ** The package *)

Section typedregexp.
Context `{!RegexpEngine} `{!TemplateEngine}.

(** The compiled matcher.  [captureGroups] is the struct given to [Compile]
    with every field wrapped in its named group; [submatchIndicesByFieldName]
    maps a field to all its submatch indices, as returned by
    [pattern.SubexpNames()]. *)
Record TypedRegexp := {
  pattern : Regexp;
  captureGroups : Value;
  submatchIndicesByFieldName : gmap string (list nat);
}.

(** The body of the loop of [wrapFieldsInCaptureGroups] for one field. *)
Definition wrapField (f : StructField) (sourceField : FieldVal) : result FieldVal :=
  let name := Name f in
  match sourceField with
  | FInt _ =>
      Err ("fields must be strings, " +:+ name +:+ " is a "
           +:+ type_String (fieldType_GoType (Type_ f)))
  | FString pattern =>
      if negb (exported name) then
        Err ("fields must be setable, " +:+ name +:+ " is read-only")
      else if decide (pattern = "") then
        Err ("field " +:+ name +:+ " is empty")
      else
        match regexp_Compile pattern with
        | Err err => Err ("error parsing regex in field " +:+ name +:+ ": " +:+ err)
        | Ok _ => Ok (FString ("(?P<" +:+ name +:+ ">" +:+ pattern +:+ ")"))
        end
  end.

(** The loop over the fields, in declaration order; it stops at the first
    field that is refused.  A struct value has one field value per field of
    its type, so the two lists run in step. *)
Fixpoint wrapFields (fs : list StructField) (vs : list FieldVal)
  : result (list FieldVal * list string) :=
  match fs, vs with
  | f :: fs', v :: vs' =>
      result_bind (wrapField f v) (λ d,
      result_bind (wrapFields fs' vs') (λ '(dest, names),
      Ok (d :: dest, Name f :: names)))
  | _, _ => Ok ([], [])
  end.

(** [Compile] calls it on structs only; on another value [v.NumField()]
    would panic, which is an error here. *)
Definition wrapFieldsInCaptureGroups (captureGroups : Value)
  : result (Value * list string) :=
  match captureGroups with
  | VStruct t fields =>
      result_bind (wrapFields (type_fields t) fields) (λ '(dest, names),
      Ok (VStruct t dest, names))
  | _ => Err "reflect: call of reflect.Value.NumField on a value that is not a struct"
  end.

Definition fillPatternTemplate (patternTemplate : string) (groupStruct : Value)
  : result string :=
  result_bind (template_Parse patternTemplate) (λ temp,
  template_Execute temp groupStruct).

(** The inner loop of the index construction: the first field name equal to
    the group name gets position [i] appended. *)
Definition recordSubmatch (fieldNames : list string)
    (indices : gmap string (list nat)) (i : nat) (submatch : string)
  : gmap string (list nat) :=
  match list_find (λ fieldName, fieldName = submatch) fieldNames with
  | Some (_, fieldName) =>
      <[fieldName := (default [] (indices !! fieldName) ++ [i])%list]> indices
  | None => indices
  end.

(** The outer loop, over [re.SubexpNames()] from position [i] on. *)
Fixpoint indexSubmatches (fieldNames : list string) (i : nat)
    (names : list string) (indices : gmap string (list nat))
  : gmap string (list nat) :=
  match names with
  | [] => indices
  | submatch :: rest =>
      indexSubmatches fieldNames (S i) rest
        (recordSubmatch fieldNames indices i submatch)
  end.

Definition Compile (patternTemplate : string) (captureGroups : Value)
  : result TypedRegexp :=
  let ct := reflect_TypeOf captureGroups in
  if decide (type_Kind ct ≠ Struct) then
    Err ("captureGroups must be a struct, is a " +:+ type_String ct)
  else
    result_bind (wrapFieldsInCaptureGroups captureGroups) (λ '(captureGroups, fieldNames),
    result_bind (fillPatternTemplate patternTemplate captureGroups) (λ pattern,
    match regexp_Compile pattern with
    | Err err => Err ("error parsing `" +:+ pattern +:+ "`: " +:+ err)
    | Ok re =>
        Ok {| captureGroups := captureGroups;
              submatchIndicesByFieldName :=
                indexSubmatches fieldNames 0 (SubexpNames re) ∅;
              pattern := re |}
    end)).

(** [MustCompile] is the same as [Compile], but panics on error. *)
Definition MustCompile (patternTemplate : string) (captureType : Value)
  : M TypedRegexp :=
  match Compile patternTemplate captureType with
  | Ok re => ret re
  | Err err => panic err
  end.

(** The walk over one field's indices. *)
Fixpoint firstNonEmptySubmatch (submatchIndices : list nat)
    (submatches : list string) : string :=
  match submatchIndices with
  | [] => ""
  | i :: rest =>
      if decide (length submatches ≤ i) then ""
      else
        let value := default "" (submatches !! i) in
        if decide (value ≠ "") then value
        else firstNonEmptySubmatch rest submatches
  end.

(** A missing map entry is the nil slice, over which the loop does not run. *)
Definition findFirstNonEmptySubmatchForField (r : TypedRegexp) (field : string)
    (submatches : list string) : string :=
  firstNonEmptySubmatch
    (default [] (submatchIndicesByFieldName r !! field)) submatches.

Local Open Scope go_scope.

(** [t.Field(i)] for the type of [r.captureGroups]. *)
Definition type_Field (t : GoType) (i : nat) : option StructField :=
  match t with
  | TStruct st => type_fields st !! i
  | _ => None
  end.

(** One iteration of the loop of [assignSubmatchesToStruct] on the struct
    variable at [p]: the name comes from the compile-time type, the value
    from the resolver, and [SetString] needs an exported field of kind
    string. *)
Definition assignField (r : TypedRegexp) (submatches : list string)
    (p : loc) (i : nat) : M unit :=
  λ h,
    match type_Field (reflect_TypeOf (captureGroups r)) i with
    | None => (Panicked "reflect: Field index out of bounds", h)
    | Some f =>
        let name := Name f in
        let fieldValue := findFirstNonEmptySubmatchForField r name submatches in
        match h !! p with
        | None => (Panicked "invalid memory address or nil pointer dereference", h)
        | Some cell =>
            match cell !! i with
            | None => (Panicked "reflect: Field index out of range", h)
            | Some old =>
                if negb (exported name) then
                  (Panicked "reflect: reflect.Value.SetString using value obtained using unexported field", h)
                else
                  match old with
                  | FString _ =>
                      (Returned (), <[p := <[i := FString fieldValue]> cell]> h)
                  | FInt _ =>
                      (Panicked "reflect: call of reflect.Value.SetString on int Value", h)
                  end
            end
        end
    end.

(** [for i := 0; i < v.NumField(); i++ { body }]. *)
Fixpoint forFields (body : nat → M unit) (indices : list nat) : M unit :=
  match indices with
  | [] => ret ()
  | i :: rest => run body i in forFields body rest
  end.

(** [v] is an addressable struct or a pointer, which is dereferenced first;
    the [Elem] of a nil pointer is the zero [reflect.Value], on which
    [NumField] panics. *)
Definition assignSubmatchesToStruct (r : TypedRegexp) (submatches : list string)
    (v : Elem) : M unit :=
  match v with
  | EStruct p | EPtr (Some p) =>
      λ h,
        match h !! p with
        | None => (Panicked "invalid memory address or nil pointer dereference", h)
        | Some cell =>
            forFields (assignField r submatches p) (seq 0 (length cell)) h
        end
  | EPtr None => panic "reflect: call of reflect.Value.NumField on zero Value"
  | EOther => panic "reflect: call of reflect.Value.NumField on a value that is not a struct"
  end.

(** [reflect.ValueOf(values)] of a pointer. *)
Definition ptr_Elem (values : Value) : Elem :=
  match values with
  | VPtr _ p => EPtr p
  | _ => EOther
  end.

Definition Find (r : TypedRegexp) (s : string) (values : Value) : M bool :=
  let t := reflect_TypeOf (captureGroups r) in
  let ptr := values in
  if decide (reflect_TypeOf ptr ≠ PtrTo t) then
    panic ("values must be " +:+ type_String (PtrTo t) +:+ ", is "
           +:+ type_String (reflect_TypeOf ptr))
  else
    let submatches := FindStringSubmatch (pattern r) s in
    if decide (length submatches = 0) then ret false
    else
      run assignSubmatchesToStruct r submatches (ptr_Elem ptr) in
      ret true.

(** The elements of a slice value; [slice.Len()] is their number. *)
Definition slice_elems (valuesSlice : Value) : list Elem :=
  match valuesSlice with
  | VSlice _ elems => elems
  | _ => []
  end.

(** [for submatchIndex, submatches := range allSubmatches { ... }]. *)
Fixpoint rangeSubmatches (r : TypedRegexp) (slice : list Elem)
    (submatchIndex : nat) (allSubmatches : list (list string)) : M unit :=
  match allSubmatches with
  | [] => ret ()
  | submatches :: rest =>
      run match slice !! submatchIndex with
          | None => panic "reflect: slice index out of range"
          | Some (EPtr None) => ret ()
          | Some v => assignSubmatchesToStruct r submatches v
          end in
      rangeSubmatches r slice (S submatchIndex) rest
  end.

Definition FindAll (r : TypedRegexp) (s : string) (valuesSlice : Value) : M nat :=
  let t := reflect_TypeOf (captureGroups r) in
  let slice := valuesSlice in
  let sliceType := reflect_TypeOf slice in
  let expectedType := SliceOf t in
  let expectedPtrType := SliceOf (PtrTo t) in
  if decide (sliceType ≠ expectedType ∧ sliceType ≠ expectedPtrType) then
    panic ("values must be " +:+ type_String expectedType +:+ " or "
           +:+ type_String expectedPtrType +:+ ", is " +:+ type_String sliceType)
  else if decide (length (slice_elems slice) = 0) then ret 0
  else
    let allSubmatches :=
      FindAllStringSubmatch (pattern r) s (Z.of_nat (length (slice_elems slice))) in
    let n := length allSubmatches in
    run rangeSubmatches r (slice_elems slice) 0 allSubmatches in
    ret n.

End typedregexp.

(** ** A reference regular-expression engine

    An executable instance of [RegexpEngine] for a fragment of the RE2 syntax
    of package [regexp]: literals, [.], the classes [\w] [\d] [\s], escaped
    punctuation, bracket classes of characters, ranges and those classes,
    greedy [*] [+] [?], alternation, capturing groups [(...)], named groups
    [(?P<name>...)] and [(?:...)].  Matching is leftmost-first by
    backtracking, as [regexp] specifies for this syntax.  Flags, anchors,
    counted and non-greedy repetition are outside the fragment and are
    refused by [parse]. *)
Module RE2.

(** An item of a bracket class. *)
Inductive class_item :=
| CChar (c : ascii)
| CRange (lo hi : ascii)
| CWord
| CDigit
| CSpace.

Inductive regex :=
| Eps
| Char (c : ascii)
| AnyChar
| Word
| Digit
| Space
| Set_ (neg : bool) (items : list class_item)
| Cat (r1 r2 : regex)
| Alt (r1 r2 : regex)
| Star (r : regex)
| Quest (r : regex)
| Capture (i : nat) (r : regex).

Definition between (lo hi : nat) (c : ascii) : bool :=
  let n := nat_of_ascii c in (lo <=? n) && (n <=? hi).

Definition is_digit (c : ascii) : bool := between 48 57 c.
Definition is_word (c : ascii) : bool :=
  is_digit c || between 65 90 c || between 97 122 c || bool_decide (c = "_"%char).
Definition is_space (c : ascii) : bool :=
  let n := nat_of_ascii c in
  bool_decide (n = 9) || bool_decide (n = 10) || bool_decide (n = 12)
  || bool_decide (n = 13) || bool_decide (n = 32).
Definition is_newline (c : ascii) : bool := bool_decide (nat_of_ascii c = 10).

Definition item_matches (x : ascii) (it : class_item) : bool :=
  match it with
  | CChar c => bool_decide (x = c)
  | CRange lo hi => between (nat_of_ascii lo) (nat_of_ascii hi) x
  | CWord => is_word x
  | CDigit => is_digit x
  | CSpace => is_space x
  end.

Definition in_class (neg : bool) (items : list class_item) (x : ascii) : bool :=
  xorb neg (existsb (item_matches x) items).

(** *** Parsing *)

(** One open group (or the top level): the alternatives already closed by
    [|], the items of the concatenation being read, both most recent first,
    and the capture index when the group captures. *)
Record frame := {
  alts : list regex;
  cur : list regex;
  cap : option nat;
}.

(** Where the reader stands inside a bracket class: between items, behind
    a single character that may start a range, behind the dash of a range,
    or behind a backslash (in an item, or in the upper end of a range). *)
Inductive class_pos :=
| Plain
| Pending (lo : ascii)
| DashAfter (lo : ascii)
| Esc
| EscHi (lo : ascii).

Inductive mode :=
| Normal
| Escape
| Open_
| OpenQ
| OpenQP
| InName (acc : list ascii)
| ClassStart
| InClass (neg first : bool) (items : list class_item) (pos : class_pos).

Record pstate := {
  stack : list frame;
  top : frame;
  ncap : nat;
  names : list string;
  md : mode;
  lastRepeat : bool;
}.

Fixpoint mkCat (items : list regex) : regex :=
  match items with
  | [] => Eps
  | [x] => x
  | x :: xs => Cat x (mkCat xs)
  end.

Fixpoint mkAlt (branches : list regex) : regex :=
  match branches with
  | [] => Eps
  | [x] => x
  | x :: xs => Alt x (mkAlt xs)
  end.

Definition frame_regex (f : frame) : regex :=
  mkAlt (rev (mkCat (rev (cur f)) :: alts f)).

Definition emptyFrame (c : option nat) : frame :=
  {| alts := []; cur := []; cap := c |}.

Definition push_item (x : regex) (st : pstate) : pstate :=
  {| stack := stack st;
     top := {| alts := alts (top st); cur := x :: cur (top st); cap := cap (top st) |};
     ncap := ncap st; names := names st; md := Normal; lastRepeat := false |}.

Definition open_capture (name : string) (st : pstate) : pstate :=
  {| stack := top st :: stack st;
     top := emptyFrame (Some (S (ncap st)));
     ncap := S (ncap st); names := name :: names st;
     md := Normal; lastRepeat := false |}.

Definition open_group (st : pstate) : pstate :=
  {| stack := top st :: stack st;
     top := emptyFrame None;
     ncap := ncap st; names := names st; md := Normal; lastRepeat := false |}.

Definition set_mode (m : mode) (st : pstate) : pstate :=
  {| stack := stack st; top := top st; ncap := ncap st; names := names st;
     md := m; lastRepeat := false |}.

Definition repeat_last (op : regex → regex) (st : pstate) : result pstate :=
  if lastRepeat st then Err "invalid nested repetition operator"
  else
    match cur (top st) with
    | [] => Err "missing argument to repetition operator"
    | x :: xs =>
        Ok {| stack := stack st;
              top := {| alts := alts (top st); cur := op x :: xs; cap := cap (top st) |};
              ncap := ncap st; names := names st; md := Normal; lastRepeat := true |}
    end.

Definition step_normal (st : pstate) (c : ascii) : result pstate :=
  if bool_decide (c = "\"%char) then Ok (set_mode Escape st)
  else if bool_decide (c = "("%char) then Ok (set_mode Open_ st)
  else if bool_decide (c = ")"%char) then
    match stack st with
    | [] => Err "unexpected )"
    | parent :: below =>
        let g := frame_regex (top st) in
        let g := match cap (top st) with Some i => Capture i g | None => g end in
        Ok {| stack := below;
              top := {| alts := alts parent; cur := g :: cur parent; cap := cap parent |};
              ncap := ncap st; names := names st; md := Normal; lastRepeat := false |}
    end
  else if bool_decide (c = "|"%char) then
    Ok {| stack := stack st;
          top := {| alts := mkCat (rev (cur (top st))) :: alts (top st);
                    cur := []; cap := cap (top st) |};
          ncap := ncap st; names := names st; md := Normal; lastRepeat := false |}
  else if bool_decide (c = "*"%char) then repeat_last Star st
  else if bool_decide (c = "+"%char) then repeat_last (λ x, Cat x (Star x)) st
  else if bool_decide (c = "?"%char) then repeat_last Quest st
  else if bool_decide (c = "."%char) then Ok (push_item AnyChar st)
  else if bool_decide (c = "["%char) then Ok (set_mode ClassStart st)
  else if bool_decide (c = "{"%char)
          || bool_decide (c = "^"%char) || bool_decide (c = "$"%char) then
    Err "syntax outside the supported fragment"
  else Ok (push_item (Char c) st).

Definition close_class (neg : bool) (items : list class_item) (st : pstate) : pstate :=
  push_item (Set_ neg (rev items)) st.

Definition add_range (neg : bool) (items : list class_item) (lo hi : ascii)
    (st : pstate) : result pstate :=
  if nat_of_ascii hi <? nat_of_ascii lo then Err "invalid character class range"
  else Ok (set_mode (InClass neg false (CRange lo hi :: items) Plain) st).

(** One character inside a bracket class.  A dash makes a range only
    between two characters; [[a-]] is the class of [a] and [-]. *)
Definition step_class (st : pstate) (neg first : bool)
    (items : list class_item) (pos : class_pos) (c : ascii) : result pstate :=
  match pos with
  | Plain =>
      if bool_decide (c = "]"%char) && negb first then Ok (close_class neg items st)
      else if bool_decide (c = "\"%char) then
        Ok (set_mode (InClass neg false items Esc) st)
      else if bool_decide (c = "["%char) then Err "syntax outside the supported fragment"
      else Ok (set_mode (InClass neg false items (Pending c)) st)
  | Pending lo =>
      if bool_decide (c = "]"%char) then Ok (close_class neg (CChar lo :: items) st)
      else if bool_decide (c = "-"%char) then
        Ok (set_mode (InClass neg false items (DashAfter lo)) st)
      else if bool_decide (c = "\"%char) then
        Ok (set_mode (InClass neg false (CChar lo :: items) Esc) st)
      else if bool_decide (c = "["%char) then Err "syntax outside the supported fragment"
      else Ok (set_mode (InClass neg false (CChar lo :: items) (Pending c)) st)
  | DashAfter lo =>
      if bool_decide (c = "]"%char) then
        Ok (close_class neg (CChar "-"%char :: CChar lo :: items) st)
      else if bool_decide (c = "\"%char) then
        Ok (set_mode (InClass neg false items (EscHi lo)) st)
      else add_range neg items lo c st
  | Esc =>
      if bool_decide (c = "w"%char) then
        Ok (set_mode (InClass neg false (CWord :: items) Plain) st)
      else if bool_decide (c = "d"%char) then
        Ok (set_mode (InClass neg false (CDigit :: items) Plain) st)
      else if bool_decide (c = "s"%char) then
        Ok (set_mode (InClass neg false (CSpace :: items) Plain) st)
      else if is_word c then Err "invalid escape sequence"
      else Ok (set_mode (InClass neg false items (Pending c)) st)
  | EscHi lo =>
      if is_word c then Err "invalid escape sequence"
      else add_range neg items lo c st
  end.

Definition step (st : pstate) (c : ascii) : result pstate :=
  match md st with
  | Normal => step_normal st c
  | Escape =>
      if bool_decide (c = "w"%char) then Ok (push_item Word st)
      else if bool_decide (c = "d"%char) then Ok (push_item Digit st)
      else if bool_decide (c = "s"%char) then Ok (push_item Space st)
      else if is_word c then Err "invalid escape sequence"
      else Ok (push_item (Char c) st)
  | Open_ =>
      if bool_decide (c = "?"%char) then Ok (set_mode OpenQ st)
      else step_normal (open_capture "" st) c
  | OpenQ =>
      if bool_decide (c = "P"%char) then Ok (set_mode OpenQP st)
      else if bool_decide (c = ":"%char) then Ok (open_group st)
      else Err "invalid or unsupported Perl syntax"
  | OpenQP =>
      if bool_decide (c = "<"%char) then Ok (set_mode (InName []) st)
      else Err "invalid named capture"
  | InName acc =>
      if bool_decide (c = ">"%char) then
        match acc with
        | [] => Err "invalid named capture"
        | _ => Ok (open_capture (String.string_of_list_ascii (rev acc)) st)
        end
      else if is_word c then Ok (set_mode (InName (c :: acc)) st)
      else Err "invalid named capture"
  | ClassStart =>
      if bool_decide (c = "^"%char) then Ok (set_mode (InClass true true [] Plain) st)
      else step_class st false true [] Plain c
  | InClass neg first items pos => step_class st neg first items pos c
  end.

Fixpoint steps (st : pstate) (cs : list ascii) : result pstate :=
  match cs with
  | [] => Ok st
  | c :: cs' => result_bind (step st c) (λ st', steps st' cs')
  end.

Definition initial : pstate :=
  {| stack := []; top := emptyFrame None; ncap := 0; names := [];
     md := Normal; lastRepeat := false |}.

(** A compiled expression: its program and the names of its
    subexpressions, the unnamed whole match first. *)
Record compiled := {
  prog : regex;
  subexpNames : list string;
}.

Definition finish (st : pstate) : result compiled :=
  match md st with
  | Normal =>
      match stack st with
      | [] => Ok {| prog := frame_regex (top st); subexpNames := "" :: rev (names st) |}
      | _ => Err "missing closing )"
      end
  | Escape => Err "trailing backslash at end of expression"
  | Open_ => Err "missing closing )"
  | OpenQ | OpenQP | InName _ => Err "invalid named capture"
  | ClassStart | InClass _ _ _ _ => Err "missing closing ]"
  end.

Definition parse (expr : string) : result compiled :=
  match result_bind (steps initial (String.list_ascii_of_string expr)) finish with
  | Ok c => Ok c
  | Err code => Err ("error parsing regexp: " +:+ code +:+ ": `" +:+ expr +:+ "`")
  end.

(** *** Matching *)

Definition consumed (s s1 : list ascii) : string :=
  String.string_of_list_ascii (take (length s - length s1) s).

Definition orelse {A} (x y : option A) : option A :=
  match x with Some _ => x | None => y end.

Definition one (p : ascii → bool) (s : list ascii) (c : list string)
    (k : list ascii → list string → option (list ascii * list string)) :=
  match s with
  | x :: s' => if p x then k s' c else None
  | [] => None
  end.

(** [exec r s c k] matches [r] at the head of [s] with captures [c] and
    hands the rest of the input to [k]; alternatives are tried left to
    right and repetition is greedy. *)
Fixpoint exec (r : regex) (s : list ascii) (c : list string)
    (k : list ascii → list string → option (list ascii * list string))
  : option (list ascii * list string) :=
  match r with
  | Eps => k s c
  | Char a => one (λ x, bool_decide (x = a)) s c k
  | AnyChar => one (λ x, negb (is_newline x)) s c k
  | Word => one is_word s c k
  | Digit => one is_digit s c k
  | Space => one is_space s c k
  | Set_ neg items => one (in_class neg items) s c k
  | Cat r1 r2 => exec r1 s c (λ s1 c1, exec r2 s1 c1 k)
  | Alt r1 r2 => orelse (exec r1 s c k) (exec r2 s c k)
  | Quest r1 => orelse (exec r1 s c k) (k s c)
  | Star r1 =>
      (fix loop (n : nat) (s : list ascii) (c : list string) {struct n} :=
         match n with
         | 0 => k s c
         | S n' =>
             orelse
               (exec r1 s c (λ s1 c1,
                  if decide (length s1 < length s) then loop n' s1 c1 else None))
               (k s c)
         end) (length s) s c
  | Capture i r1 =>
      exec r1 s c (λ s1 c1, k s1 (<[i := consumed s s1]> c1))
  end.

(** One anchored attempt at [s]: the input where the match starts, the input
    left after it, and the captures with the whole match at index 0. *)
Definition attempt (re : compiled) (s : list ascii)
  : option (list ascii * list ascii * list string) :=
  match exec (prog re) s (replicate (length (subexpNames re)) "")
             (λ s1 c1, Some (s1, c1)) with
  | Some (s1, c1) => Some (s, s1, <[0 := consumed s s1]> c1)
  | None => None
  end.

(** The leftmost match at or after the head of [s]. *)
Fixpoint search (re : compiled) (s : list ascii)
  : option (list ascii * list ascii * list string) :=
  orelse (attempt re s)
         (match s with
          | [] => None
          | _ :: s' => search re s'
          end).

Definition pad (re : compiled) (c : list string) : list string :=
  (λ i, default "" (c !! i)) <$> seq 0 (length (subexpNames re)).

Definition findStringSubmatch (re : compiled) (s : string) : list string :=
  match search re (String.list_ascii_of_string s) with
  | Some (_, _, c) => pad re c
  | None => []
  end.

(** Successive matches: after a match the search resumes at its end; an
    empty match is dropped when it sits right at the end of the previous
    match, and the search then moves on by one character.  Positions are
    kept as the length of the input that is left. *)
Fixpoint allMatches (n : nat) (re : compiled) (s : list ascii)
    (prevMatchEnd : option nat) : list (list string) :=
  match n with
  | 0 => []
  | S n' =>
      match search re s with
      | None => []
      | Some (a, b, c) =>
          if decide (length b = length s) then
            let rest :=
              match s with
              | [] => []
              | _ :: s' => allMatches n' re s' (Some (length b))
              end in
            if decide (prevMatchEnd = Some (length a)) then rest
            else pad re c :: rest
          else pad re c :: allMatches n' re b (Some (length b))
      end
  end.

Definition findAllStringSubmatch (re : compiled) (s : string) (n : Z)
  : list (list string) :=
  let all := allMatches (S (String.length s)) re (String.list_ascii_of_string s) None in
  if decide (n < 0)%Z then all else take (Z.to_nat n) all.

Lemma findStringSubmatch_length re s :
  findStringSubmatch re s = [] ∨
  length (findStringSubmatch re s) = length (subexpNames re).
Proof.
  unfold findStringSubmatch.
  destruct (search re _) as [[[a b] c]|]; [right|by left].
  unfold pad. by rewrite length_fmap, length_seq.
Qed.

Lemma findAllStringSubmatch_limit re s n :
  (0 ≤ n)%Z →
  findAllStringSubmatch re s n =
    take (Z.to_nat n) (findAllStringSubmatch re s (-1)).
Proof.
  intros Hn. unfold findAllStringSubmatch.
  destruct (decide (n < 0)%Z); [lia|].
  by destruct (decide (-1 < 0)%Z); [|lia].
Qed.

Definition regexp_engine : RegexpEngine := {|
  Regexp := compiled;
  regexp_Compile := parse;
  SubexpNames := subexpNames;
  FindStringSubmatch := findStringSubmatch;
  FindAllStringSubmatch := findAllStringSubmatch;
  FindStringSubmatch_length := findStringSubmatch_length;
  FindAllStringSubmatch_limit := findAllStringSubmatch_limit;
|}.

End RE2.

(** ** A reference template engine

    An executable instance of [TemplateEngine] for templates made of text
    and field actions [{{.Name}}] (blanks allowed inside the braces).  The
    error texts are abbreviations of those of [text/template]. *)
Module Tmpl.

Inductive node :=
| Text (c : ascii)
| FieldNode (name : string).

Inductive scan_state :=
| InText
| Brace
| Action
| InField (acc : list ascii)
| AfterField (name : string)
| Closing (name : string).

Definition is_ident (c : ascii) : bool := RE2.is_word c.

(** One character; the nodes are collected most recent first. *)
Definition scan (st : scan_state * list node) (c : ascii) : result (scan_state * list node) :=
  let '(m, out) := st in
  match m with
  | InText =>
      if bool_decide (c = "{"%char) then Ok (Brace, out) else Ok (InText, Text c :: out)
  | Brace =>
      if bool_decide (c = "{"%char) then Ok (Action, out)
      else Ok (InText, Text c :: Text "{"%char :: out)
  | Action =>
      if bool_decide (c = " "%char) then Ok (Action, out)
      else if bool_decide (c = "."%char) then Ok (InField [], out)
      else Err "template: :1: unexpected input in action"
  | InField acc =>
      if is_ident c then Ok (InField (c :: acc), out)
      else
        match acc with
        | [] => Err "template: :1: unexpected input in action"
        | _ =>
            let name := String.string_of_list_ascii (rev acc) in
            if bool_decide (c = " "%char) then Ok (AfterField name, out)
            else if bool_decide (c = "}"%char) then Ok (Closing name, out)
            else Err "template: :1: unexpected input in operand"
        end
  | AfterField name =>
      if bool_decide (c = " "%char) then Ok (AfterField name, out)
      else if bool_decide (c = "}"%char) then Ok (Closing name, out)
      else Err "template: :1: unexpected input in action"
  | Closing name =>
      if bool_decide (c = "}"%char) then Ok (InText, FieldNode name :: out)
      else Err "template: :1: unexpected } in operand"
  end.

Fixpoint scanAll (st : scan_state * list node) (cs : list ascii) : result (scan_state * list node) :=
  match cs with
  | [] => Ok st
  | c :: cs' => result_bind (scan st c) (λ st', scanAll st' cs')
  end.

Definition parseTemplate (text : string) : result (list node) :=
  result_bind (scanAll (InText, []) (String.list_ascii_of_string text)) (λ '(m, out),
  match m with
  | InText => Ok (rev out)
  | Brace => Ok (rev (Text "{"%char :: out))
  | _ => Err "template: :1: unclosed action"
  end).

Definition lookupField (data : Value) (name : string) : result string :=
  match data with
  | VStruct t fields =>
      match list_find (λ f, Name f = name) (type_fields t) with
      | Some (i, _) =>
          if negb (exported name) then
            Err ("template: :1: executing: " +:+ name +:+ " is an unexported field of struct type "
                 +:+ type_name t)
          else
            match fields !! i with
            | Some (FString s) => Ok s
            | Some (FInt z) => Ok (pretty z)
            | None => Err "template: :1: executing: missing field value"
            end
      | None =>
          Err ("template: :1: executing: can't evaluate field " +:+ name +:+ " in type "
               +:+ type_name t)
      end
  | _ =>
      Err ("template: :1: executing: can't evaluate field " +:+ name +:+ " in type "
           +:+ type_String (reflect_TypeOf data))
  end.

Fixpoint executeTemplate (nodes : list node) (data : Value) : result string :=
  match nodes with
  | [] => Ok ""
  | Text c :: rest =>
      result_bind (executeTemplate rest data) (λ out, Ok (String c out))
  | FieldNode name :: rest =>
      result_bind (lookupField data name) (λ s,
      result_bind (executeTemplate rest data) (λ out, Ok (s +:+ out)))
  end.

Definition template_engine : TemplateEngine := {|
  Template := list node;
  template_Parse := parseTemplate;
  template_Execute := executeTemplate;
|}.

End Tmpl.

(** ** The structs of the package's tests and examples *)

Module Fixtures.

Definition stringField (name : string) : StructField :=
  {| Name := name; Type_ := FTString |}.

Definition CaptureGroups : StructType :=
  {| type_name := "typedregexp.CaptureGroups";
     type_fields := [stringField "Name"; stringField "S0m3th1ng"] |}.

Definition InvalidFieldType : StructType :=
  {| type_name := "typedregexp.InvalidFieldType";
     type_fields := [{| Name := "Age"; Type_ := FTInt |}] |}.

Definition Values : StructType :=
  {| type_name := "typedregexp.Values";
     type_fields := [stringField "Name"; stringField "Age"] |}.

(** Same fields as [Values], another declaration. *)
Definition ValuesDefaults : StructType :=
  {| type_name := "typedregexp.ValuesDefaults";
     type_fields := [stringField "Name"; stringField "Age"] |}.

(** One struct variable at address 0, and two at addresses 0 and 1. *)
Definition oneStruct (cell : list FieldVal) : Heap := {[ 0 := cell ]}.
Definition twoStructs (cell0 cell1 : list FieldVal) : Heap :=
  {[ 0 := cell0; 1 := cell1 ]}.

#[local] Existing Instances RE2.regexp_engine Tmpl.template_engine.

Definition is_Ok {A} (res : result A) : bool :=
  match res with Ok _ => true | Err _ => false end.

Definition error_of {A} (res : result A) : option string :=
  match res with Ok _ => None | Err msg => Some msg end.

Definition from_result {A} (zero : A) (res : result A) : A :=
  match res with Ok a => a | Err _ => zero end.

Definition zeroRegexp : RE2.compiled :=
  {| RE2.prog := RE2.Eps; RE2.subexpNames := [] |}.

Definition zeroMatcher : TypedRegexp :=
  {| pattern := zeroRegexp; captureGroups := VString "";
     submatchIndicesByFieldName := ∅ |}.

(** The matcher that [MustCompile] returns when it does not panic. *)
Definition compiled (patternTemplate : string) (captureGroups : Value)
  : TypedRegexp :=
  from_result zeroMatcher (Compile patternTemplate captureGroups).

(** The matchers of [TestFind_*] and [TestFindAll*]. *)
Definition alternatives : TypedRegexp :=
  compiled "a {{.Name}}|b {{.Name}}"
    (VStruct CaptureGroups [FString "\w+"; FString "\d+"]).

Definition singleField : TypedRegexp :=
  compiled "{{.Name}}"
    (VStruct CaptureGroups [FString "\w+"; FString "\d+"]).

(** The matcher of the scenario with an optional group. *)
Definition optionalAge : TypedRegexp :=
  compiled "{{.Name}}( {{.Age}})?"
    (VStruct Values [FString "\w+"; FString "\d+"]).

(** A matcher with a branch that holds no field. *)
Definition literalBranch : TypedRegexp :=
  compiled "x|{{.Name}} {{.Age}}"
    (VStruct Values [FString "\w+"; FString "\d+"]).

(** The matcher of [ExampleTypedRegexp_Find]. *)
Definition greeting : TypedRegexp :=
  compiled "Hi, I'm {{.Name}}. I'm {{.Age}} years old!|I'm {{.Name}}, I'm {{.Age}}."
    (VStruct Values [FString "\w+"; FString "\d+"]).

End Fixtures.

(** ** The resolver as the specification words it *)

(** The walk of section 4.3: an index beyond the submatches is absent and the
    walk goes on with the next index; the first value that is present and
    not empty is returned. *)
Fixpoint walkSkippingAbsent (submatchIndices : list nat)
    (submatches : list string) : string :=
  match submatchIndices with
  | [] => ""
  | i :: rest =>
      match submatches !! i with
      | Some value =>
          if decide (value ≠ "") then value
          else walkSkippingAbsent rest submatches
      | None => walkSkippingAbsent rest submatches
      end
  end.

(** The positions [i, i+1, ...] of the names equal to [field]. *)
Fixpoint positionsOf (field : string) (i : nat) (names : list string) : list nat :=
  match names with
  | [] => []
  | n :: rest =>
      if decide (n = field) then i :: positionsOf field (S i) rest
      else positionsOf field (S i) rest
  end.

(** ** Vocabulary of the properties *)

Section vocabulary.
Context `{!RegexpEngine} `{!TemplateEngine}.

(** The fields of the struct type of a value of type [T]. *)
Definition struct_fields (T : GoType) : list StructField :=
  match T with
  | TStruct st => type_fields st
  | _ => []
  end.

(** A matcher for struct type [t]: it keeps a struct of that type, and all
    fields of the type are exported strings. *)
Definition matcher_for (t : StructType) (r : TypedRegexp) : Prop :=
  reflect_TypeOf (captureGroups r) = TStruct t ∧
  Forall (λ f, exported (Name f) = true ∧ Type_ f = FTString) (type_fields t).

(** A field that passes the checks of the loop. *)
Definition field_accepted (f : StructField) (v : FieldVal) : Prop :=
  ∃ pattern re,
    v = FString pattern ∧ exported (Name f) = true ∧ pattern ≠ "" ∧
    regexp_Compile pattern = Ok re.

(** The error of the loop over the fields, if it fails. *)
Definition error_of_wrap (res : result (list FieldVal * list string))
  : option string :=
  match res with Ok _ => None | Err msg => Some msg end.

(** The struct that [assignSubmatchesToStruct] leaves behind: every field
    holds what the resolver returned for it. *)
Definition resolvedFields (r : TypedRegexp) (submatches : list string)
  : list FieldVal :=
  (λ f, FString (findFirstNonEmptySubmatchForField r (Name f) submatches))
    <$> struct_fields (reflect_TypeOf (captureGroups r)).

(** A struct variable of the matcher's type. *)
Definition cell_ready (r : TypedRegexp) (cell : list FieldVal) : Prop :=
  length cell = length (struct_fields (reflect_TypeOf (captureGroups r))) ∧
  Forall (λ v, fieldVal_Kind v = String_) cell.

(** The struct variable behind a slot, if the slot is not a nil pointer. *)
Definition slot_target (e : Elem) : option loc :=
  match e with
  | EStruct p => Some p
  | EPtr p => p
  | EOther => None
  end.

(** Every slot is a struct variable of the matcher's type, a pointer to one,
    or nil. *)
Definition slots_ready (r : TypedRegexp) (h : Heap) (slice : list Elem) : Prop :=
  Forall (λ e, e ≠ EOther ∧
               ∀ p, slot_target e = Some p →
                    ∃ cell, h !! p = Some cell ∧ cell_ready r cell) slice.

(** The heap after the range loop: match [k], [k+1], ... is written to the
    target of slot [k], [k+1], ... when that slot has one. *)
Fixpoint writeSubmatches (r : TypedRegexp) (slice : list Elem) (k : nat)
    (allSubmatches : list (list string)) (h : Heap) : Heap :=
  match allSubmatches with
  | [] => h
  | submatches :: rest =>
      writeSubmatches r slice (S k) rest
        match slice !! k ≫= slot_target with
        | Some p => <[p := resolvedFields r submatches]> h
        | None => h
        end
  end.

(** The slots point to pairwise different struct variables. *)
Definition slots_distinct (slice : list Elem) : Prop :=
  NoDup (omap slot_target slice).

(** The field set of the struct a [Find] output points to, and of the
    struct a [FindAll] output holds (directly or through pointers). *)
Definition pointer_shape (values : Value) : option (list StructField) :=
  match reflect_TypeOf values with
  | TPtr (TStruct u) => Some (type_fields u)
  | _ => None
  end.

Definition slice_shape (valuesSlice : Value) : option (list StructField) :=
  match reflect_TypeOf valuesSlice with
  | TSlice (TStruct u) | TSlice (TPtr (TStruct u)) => Some (type_fields u)
  | _ => None
  end.

(** The messages of the two type checks. *)
Definition Find_mismatch (t : StructType) (values : Value) : string :=
  "values must be " +:+ type_String (PtrTo (TStruct t)) +:+ ", is "
  +:+ type_String (reflect_TypeOf values).

Definition FindAll_mismatch (t : StructType) (valuesSlice : Value) : string :=
  "values must be " +:+ type_String (SliceOf (TStruct t)) +:+ " or "
  +:+ type_String (SliceOf (PtrTo (TStruct t))) +:+ ", is "
  +:+ type_String (reflect_TypeOf valuesSlice).

(** What the loop of [wrapFieldsInCaptureGroups] stores for a field it
    accepts: the sub-pattern inside the group named after the field. *)
Definition wrapInGroup (f : StructField) (v : FieldVal) : FieldVal :=
  match v with
  | FString sub => FString ("(?P<" +:+ Name f +:+ ">" +:+ sub +:+ ")")
  | FInt z => FInt z
  end.

End vocabulary.

(** * Properties *)

(** ** The walk over a field's indices *)

Lemma firstNonEmptySubmatch_skips_empty pre i post submatches v :
  Forall (λ j, submatches !! j = Some "") pre →
  submatches !! i = Some v →
  v ≠ "" →
  firstNonEmptySubmatch (pre ++ i :: post) submatches = v.
Proof.
  intros Hpre Hi Hv. induction Hpre as [|j pre Hj _ IH]; simpl.
  - apply lookup_lt_Some in Hi as Hlt.
    destruct (decide (length submatches ≤ i)); [lia|].
    rewrite Hi. simpl. destruct (decide (v ≠ "")); [done|contradiction].
  - apply lookup_lt_Some in Hj as Hlt.
    destruct (decide (length submatches ≤ j)); [lia|].
    rewrite Hj. simpl. destruct (decide ("" ≠ "")) as [Hne|_]; [by destruct Hne|].
    exact IH.
Qed.

Lemma firstNonEmptySubmatch_all_empty idxs submatches :
  Forall (λ j, submatches !! j = Some "" ∨ submatches !! j = None) idxs →
  firstNonEmptySubmatch idxs submatches = "".
Proof.
  induction 1 as [|j idxs Hj _ IH]; simpl; [done|].
  destruct (decide (length submatches ≤ j)); [done|].
  destruct Hj as [Hj|Hj].
  - rewrite Hj. simpl. destruct (decide ("" ≠ "")) as [Hne|_]; [by destruct Hne|done].
  - apply lookup_ge_None in Hj. lia.
Qed.

Lemma walkSkippingAbsent_out_of_bounds idxs submatches :
  Forall (λ j, length submatches ≤ j) idxs →
  walkSkippingAbsent idxs submatches = "".
Proof.
  induction 1 as [|j idxs Hj _ IH]; simpl; [done|].
  by rewrite (proj2 (lookup_ge_None submatches j) Hj).
Qed.

(** Dropping the indices that are out of bounds is what the skipping walk
    computes. *)
Lemma walkSkippingAbsent_filter idxs submatches :
  walkSkippingAbsent idxs submatches =
  firstNonEmptySubmatch (filter (λ i, i < length submatches) idxs) submatches.
Proof.
  induction idxs as [|i idxs IH]; simpl; [done|].
  rewrite filter_cons. destruct (decide (i < length submatches)) as [Hlt|Hge].
  - simpl. destruct (decide (length submatches ≤ i)); [lia|].
    destruct (lookup_lt_is_Some_2 submatches i Hlt) as [v Hv]. rewrite Hv. simpl.
    destruct (decide (v ≠ "")); [done|exact IH].
  - rewrite (proj2 (lookup_ge_None submatches i)); [exact IH|lia].
Qed.

(** On an ascending list the early return of the code and the skipping walk
    agree: behind an index that is out of bounds all indices are. *)
Lemma firstNonEmptySubmatch_ascending idxs submatches :
  StronglySorted lt idxs →
  firstNonEmptySubmatch idxs submatches = walkSkippingAbsent idxs submatches.
Proof.
  induction 1 as [|i idxs Hs IH Hall]; simpl; [done|].
  destruct (decide (length submatches ≤ i)) as [Hge|Hlt].
  - rewrite (proj2 (lookup_ge_None submatches i) Hge).
    symmetry. apply walkSkippingAbsent_out_of_bounds.
    eapply Forall_impl; [exact Hall|]. simpl. intros j Hj. lia.
  - destruct (lookup_lt_is_Some_2 submatches i) as [v Hv]; [lia|].
    rewrite Hv. simpl. destruct (decide (v ≠ "")); [done|exact IH].
Qed.

(** ** The index of submatches by field name *)

Lemma positionsOf_ge field i names :
  Forall (λ j, i ≤ j) (positionsOf field i names).
Proof.
  revert i. induction names as [|n names IH]; intros i; simpl; [constructor|].
  destruct (decide (n = field)).
  - constructor; [lia|]. eapply Forall_impl; [apply (IH (S i))|]. simpl. lia.
  - eapply Forall_impl; [apply (IH (S i))|]. simpl. lia.
Qed.

Lemma positionsOf_ascending field i names :
  StronglySorted lt (positionsOf field i names).
Proof.
  revert i. induction names as [|n names IH]; intros i; simpl; [constructor|].
  destruct (decide (n = field)); [|apply IH].
  constructor; [apply IH|].
  eapply Forall_impl; [apply (positionsOf_ge field (S i))|]. simpl. lia.
Qed.

Lemma positionsOf_bound field i names :
  Forall (λ j, j < i + length names) (positionsOf field i names).
Proof.
  revert i. induction names as [|n names IH]; intros i; simpl; [constructor|].
  destruct (decide (n = field)).
  - constructor; [lia|]. eapply Forall_impl; [apply (IH (S i))|]. simpl. lia.
  - eapply Forall_impl; [apply (IH (S i))|]. simpl. lia.
Qed.

Lemma positionsOf_nonempty field i names :
  field ∈ names → positionsOf field i names ≠ [].
Proof.
  revert i. induction names as [|n names IH]; intros i Hin; simpl.
  - by apply elem_of_nil in Hin.
  - destruct (decide (n = field)); [done|].
    apply elem_of_cons in Hin as [->|Hin]; [done|]. by apply IH.
Qed.

Lemma positionsOf_empty field i names :
  field ∉ names → positionsOf field i names = [].
Proof.
  revert i. induction names as [|n names IH]; intros i Hin; simpl; [done|].
  destruct (decide (n = field)) as [->|].
  - exfalso. apply Hin. by left.
  - apply IH. intros ?. apply Hin. by right.
Qed.

Section index.
Context `{!RegexpEngine} `{!TemplateEngine}.

Lemma recordSubmatch_known fieldNames indices i submatch :
  submatch ∈ fieldNames →
  recordSubmatch fieldNames indices i submatch =
  <[submatch := (default [] (indices !! submatch) ++ [i])%list]> indices.
Proof.
  intros Hin. unfold recordSubmatch.
  destruct (list_find _ fieldNames) as [[k fn]|] eqn:Hfind.
  - apply list_find_Some in Hfind as (_ & -> & _). done.
  - apply list_find_None in Hfind. rewrite Forall_forall in Hfind.
    destruct (Hfind submatch Hin eq_refl).
Qed.

Lemma recordSubmatch_unknown fieldNames indices i submatch :
  submatch ∉ fieldNames →
  recordSubmatch fieldNames indices i submatch = indices.
Proof.
  intros Hnin. unfold recordSubmatch.
  destruct (list_find _ fieldNames) as [[k fn]|] eqn:Hfind; [|done].
  apply list_find_Some in Hfind as (Hk & -> & _).
  destruct Hnin. eapply list_elem_of_lookup_2. exact Hk.
Qed.

(** What the two nested loops leave in the map for one field. *)
Lemma indexSubmatches_lookup fieldNames field i names indices :
  indexSubmatches fieldNames i names indices !! field =
  if decide (field ∈ fieldNames) then
    match positionsOf field i names with
    | [] => indices !! field
    | ps => Some (default [] (indices !! field) ++ ps)%list
    end
  else indices !! field.
Proof.
  revert i indices. induction names as [|n names IH]; intros i indices; simpl.
  - by destruct (decide (field ∈ fieldNames)).
  - rewrite IH. destruct (decide (field ∈ fieldNames)) as [Hin|Hnin].
    + destruct (decide (n = field)) as [->|Hne].
      * rewrite recordSubmatch_known by done. rewrite lookup_insert_eq. simpl.
        destruct (positionsOf field (S i) names) as [|q qs]; [done|].
        by rewrite <- app_assoc.
      * destruct (decide (n ∈ fieldNames)).
        -- rewrite recordSubmatch_known by done. by rewrite lookup_insert_ne.
        -- by rewrite recordSubmatch_unknown.
    + destruct (decide (n ∈ fieldNames)).
      * rewrite recordSubmatch_known by done.
        rewrite lookup_insert_ne; [done|]. intros ->. done.
      * by rewrite recordSubmatch_unknown.
Qed.

Lemma indexSubmatches_empty_lookup fieldNames field names :
  default [] (indexSubmatches fieldNames 0 names ∅ !! field) =
  if decide (field ∈ fieldNames) then positionsOf field 0 names else [].
Proof.
  rewrite indexSubmatches_lookup, lookup_empty.
  destruct (decide (field ∈ fieldNames)); [|done].
  by destruct (positionsOf field 0 names).
Qed.

Lemma indexSubmatches_ascending fieldNames field names :
  StronglySorted lt (default [] (indexSubmatches fieldNames 0 names ∅ !! field)).
Proof.
  rewrite indexSubmatches_empty_lookup.
  destruct (decide (field ∈ fieldNames)); [apply positionsOf_ascending|constructor].
Qed.

End index.

(** ** What [Compile] establishes *)

Section compile.
Context `{!RegexpEngine} `{!TemplateEngine}.

Lemma wrapField_Ok f v d :
  wrapField f v = Ok d →
  field_accepted f v ∧
  ∃ pattern, v = FString pattern ∧
             d = FString ("(?P<" +:+ Name f +:+ ">" +:+ pattern +:+ ")").
Proof.
  unfold wrapField, field_accepted. destruct v as [pat|z]; [|done].
  destruct (exported (Name f)) eqn:Hexp; simpl; [|done].
  destruct (decide (pat = "")); [done|].
  destruct (regexp_Compile pat) as [re|e] eqn:Hre; [|done].
  intros [= <-]. split; [by exists pat, re|by exists pat].
Qed.

Lemma wrapField_accepted f v :
  field_accepted f v →
  ∃ pattern, v = FString pattern ∧
    wrapField f v = Ok (FString ("(?P<" +:+ Name f +:+ ">" +:+ pattern +:+ ")")).
Proof.
  intros (pat & re & -> & Hexp & Hne & Hre). exists pat. split; [done|].
  unfold wrapField. rewrite Hexp. simpl.
  destruct (decide (pat = "")); [done|]. by rewrite Hre.
Qed.

Lemma wrapFields_Ok fs vs dest names :
  length vs = length fs →
  wrapFields fs vs = Ok (dest, names) →
  Forall2 field_accepted fs vs ∧ names = Name <$> fs ∧ length dest = length fs.
Proof.
  revert vs dest names. induction fs as [|f fs IH]; intros [|v vs] dest names Hlen; simpl in *;
    try discriminate.
  - intros [= <- <-]. by repeat split.
  - destruct (wrapField f v) as [d|e] eqn:Hd; simpl; [|done].
    destruct (wrapFields fs vs) as [[dest' names']|e] eqn:Hrest; simpl; [|done].
    intros [= <- <-]. apply wrapField_Ok in Hd as [Hacc _].
    destruct (IH vs dest' names') as (Hall & -> & Hl); [lia|done|].
    repeat split; [by constructor|simpl; by rewrite Hl].
Qed.

Lemma wrapFields_accepted fs vs :
  Forall2 field_accepted fs vs →
  ∃ dest, wrapFields fs vs = Ok (dest, Name <$> fs) ∧ length dest = length fs.
Proof.
  induction 1 as [|f v fs vs Hacc _ (dest & IH & Hl)]; simpl.
  - by exists [].
  - apply wrapField_accepted in Hacc as (pat & -> & ->). simpl. rewrite IH. simpl.
    eexists. split; [done|]. simpl. by rewrite Hl.
Qed.

(** The stages of a successful [Compile]. *)
Lemma Compile_Ok patternTemplate cg r :
  Compile patternTemplate cg = Ok r →
  ∃ t fields dest names composite,
    cg = VStruct t fields ∧
    wrapFields (type_fields t) fields = Ok (dest, names) ∧
    fillPatternTemplate patternTemplate (VStruct t dest) = Ok composite ∧
    regexp_Compile composite = Ok (pattern r) ∧
    captureGroups r = VStruct t dest ∧
    submatchIndicesByFieldName r =
      indexSubmatches names 0 (SubexpNames (pattern r)) ∅.
Proof.
  unfold Compile. destruct cg as [| |t fields| |]; try done.
  cbn [reflect_TypeOf type_Kind wrapFieldsInCaptureGroups].
  destruct (decide (Struct ≠ Struct)); [done|].
  destruct (wrapFields (type_fields t) fields) as [[dest names]|e] eqn:Hw; simpl; [|done].
  destruct (fillPatternTemplate patternTemplate (VStruct t dest)) as [composite|e] eqn:Hf;
    simpl; [|done].
  destruct (regexp_Compile composite) as [re|e] eqn:Hre; [|done].
  intros [= <-]. simpl. by exists t, fields, dest, names, composite.
Qed.

Lemma Compile_matcher_for patternTemplate t fields r :
  cell_has_type t fields →
  Compile patternTemplate (VStruct t fields) = Ok r →
  matcher_for t r.
Proof.
  intros Hty Hc.
  apply Compile_Ok in Hc as (t' & fields' & dest & names & comp & [= <- <-] & Hw & _ & _ & Hcg & _).
  split; [by rewrite Hcg|].
  apply wrapFields_Ok in Hw as (Hacc & _ & _);
    [|symmetry; by eapply Forall2_length].
  unfold cell_has_type in Hty.
  apply Forall_forall. intros f Hf.
  apply list_elem_of_lookup in Hf as [i Hi].
  destruct (Forall2_lookup_l _ _ _ _ _ Hacc Hi) as (v & Hv & pat & re & -> & Hexp & _).
  destruct (Forall2_lookup_l _ _ _ _ _ Hty Hi) as (v' & Hv' & Hk).
  rewrite Hv in Hv'. injection Hv' as <-.
  split; [done|]. by destruct (Type_ f).
Qed.

(** A refused field, wherever it stands, makes the loop fail. *)
Lemma wrapFields_refused fs vs k f v e :
  fs !! k = Some f → vs !! k = Some v → wrapField f v = Err e →
  is_Some (error_of_wrap (wrapFields fs vs)).
Proof.
  revert vs k. induction fs as [|g fs IH]; intros [|w vs] k Hf Hv He;
    try (by rewrite lookup_nil in Hf); try (by rewrite lookup_nil in Hv).
  cbn [wrapFields]. destruct (wrapField g w) as [d|e'] eqn:Hg; [|by eexists].
  cbn [result_bind]. destruct k as [|k]; simpl in Hf, Hv.
  - injection Hf as ->. injection Hv as ->. congruence.
  - destruct (IH vs k Hf Hv He) as [msg Hmsg].
    destruct (wrapFields fs vs) as [[dest names]|e'']; [done|]. by eexists.
Qed.

(** No matcher comes out of a schema with a refused field, whatever the
    template. *)
Lemma Compile_fails_on_refused_field t fields k f v e :
  type_fields t !! k = Some f → fields !! k = Some v → wrapField f v = Err e →
  ∃ msg, ∀ patternTemplate,
    Compile patternTemplate (VStruct t fields) = Err msg.
Proof.
  intros Hf Hv He. destruct (wrapFields_refused _ _ _ _ _ _ Hf Hv He) as [m Hm].
  destruct (wrapFields (type_fields t) fields) as [[dest names]|msg] eqn:Hw; [done|].
  exists msg. intros patternTemplate.
  unfold Compile. cbn [reflect_TypeOf type_Kind wrapFieldsInCaptureGroups].
  destruct (decide (Struct ≠ Struct)); [done|]. by rewrite Hw.
Qed.

(** Every index kept for a field is a position of [SubexpNames], in
    ascending order. *)
Lemma Compile_indices_ascending patternTemplate cg r field :
  Compile patternTemplate cg = Ok r →
  StronglySorted lt (default [] (submatchIndicesByFieldName r !! field)).
Proof.
  intros Hc. apply Compile_Ok in Hc as (t & fields & dest & names & comp & _ & _ & _ & _ & _ & ->).
  apply indexSubmatches_ascending.
Qed.

Lemma Compile_indices_in_range patternTemplate cg r field :
  Compile patternTemplate cg = Ok r →
  Forall (λ i, i < length (SubexpNames (pattern r)))
         (default [] (submatchIndicesByFieldName r !! field)).
Proof.
  intros Hc. apply Compile_Ok in Hc as (t & fields & dest & names & comp & _ & _ & _ & _ & _ & ->).
  rewrite indexSubmatches_empty_lookup.
  destruct (decide (field ∈ names)); [|constructor].
  apply (positionsOf_bound field 0).
Qed.

End compile.

(** ** Writing the submatches into a struct *)

Section assign.
Context `{!RegexpEngine} `{!TemplateEngine}.

Lemma matcher_for_cell_ready t r cell :
  matcher_for t r → cell_has_type t cell → cell_ready r cell.
Proof.
  intros [HT Hfs] Hty. unfold cell_ready. rewrite HT. simpl. split.
  - symmetry. by eapply Forall2_length.
  - apply Forall_forall. intros v Hv.
    apply list_elem_of_lookup in Hv as [i Hi].
    destruct (Forall2_lookup_r _ _ _ _ _ Hty Hi) as (f & Hf & Hk).
    rewrite Forall_forall in Hfs.
    destruct (Hfs f) as [_ Hs]; [by eapply list_elem_of_lookup_2|].
    by rewrite Hs in Hk.
Qed.

Lemma resolvedFields_ready r submatches :
  cell_ready r (resolvedFields r submatches).
Proof.
  unfold cell_ready, resolvedFields. split; [by rewrite length_fmap|].
  apply Forall_fmap, Forall_true. done.
Qed.

Lemma resolvedFields_lookup r submatches i f :
  struct_fields (reflect_TypeOf (captureGroups r)) !! i = Some f →
  resolvedFields r submatches !! i =
    Some (FString (findFirstNonEmptySubmatchForField r (Name f) submatches)).
Proof. intros Hf. unfold resolvedFields. by rewrite list_lookup_fmap, Hf. Qed.

Lemma type_Field_struct_fields T i : type_Field T i = struct_fields T !! i.
Proof. destruct T; simpl; try done; by rewrite ?lookup_nil. Qed.

(** The loop from field [k] on: the fields before [k] are kept, the others
    are overwritten with what the resolver returns. *)
Lemma forFields_assign r submatches p n :
  Forall (λ f, exported (Name f) = true)
         (struct_fields (reflect_TypeOf (captureGroups r))) →
  ∀ k cell (h : Heap),
    h !! p = Some cell →
    cell_ready r cell →
    k + n = length cell →
    forFields (assignField r submatches p) (seq k n) h =
      (Returned (), <[p := take k cell ++ drop k (resolvedFields r submatches)]> h).
Proof.
  intros Hexp. induction n as [|n IH]; intros k cell h Hp [Hlen Hstr] Hk; simpl.
  - unfold ret. f_equal.
    rewrite drop_ge by (unfold resolvedFields; rewrite length_fmap; lia).
    rewrite take_ge by lia. rewrite app_nil_r. by rewrite insert_id.
  - unfold bind, assignField. rewrite type_Field_struct_fields.
    destruct (lookup_lt_is_Some_2 (struct_fields (reflect_TypeOf (captureGroups r))) k)
      as [f Hf]; [lia|].
    rewrite Hf, Hp.
    destruct (lookup_lt_is_Some_2 cell k) as [v Hv]; [lia|]. rewrite Hv.
    rewrite Forall_forall in Hstr. rewrite Forall_forall in Hexp.
    pose proof (Hstr v (list_elem_of_lookup_2 _ _ _ Hv)) as Hkind.
    rewrite (Hexp f (list_elem_of_lookup_2 _ _ _ Hf)). cbn [negb].
    destruct v as [old|z]; [|done].
    set (x := FString (findFirstNonEmptySubmatchForField r (Name f) submatches)).
    rewrite (IH (S k) (<[k := x]> cell)).
    + f_equal. rewrite insert_insert_eq. f_equal.
      rewrite (take_S_r (<[k := x]> cell) k x)
        by (apply list_lookup_insert_eq; lia).
      rewrite take_insert_ge by lia.
      rewrite (drop_S (resolvedFields r submatches) x k)
        by (by apply resolvedFields_lookup).
      by rewrite <- app_assoc.
    + by rewrite lookup_insert_eq.
    + split; [by rewrite length_insert|].
      apply Forall_insert; [|done]. apply Forall_forall. exact Hstr.
    + rewrite length_insert. lia.
Qed.

Lemma assignSubmatchesToStruct_at r submatches v p cell (h : Heap) :
  Forall (λ f, exported (Name f) = true)
         (struct_fields (reflect_TypeOf (captureGroups r))) →
  v = EStruct p ∨ v = EPtr (Some p) →
  h !! p = Some cell →
  cell_ready r cell →
  assignSubmatchesToStruct r submatches v h =
    (Returned (), <[p := resolvedFields r submatches]> h).
Proof.
  intros Hexp Hv Hp Hready.
  assert (assignSubmatchesToStruct r submatches v h =
          forFields (assignField r submatches p) (seq 0 (length cell)) h) as ->.
  { destruct Hv as [-> | ->]; simpl; by rewrite Hp. }
  by rewrite (forFields_assign r submatches p (length cell) Hexp 0 cell h).
Qed.

Lemma matcher_for_exported t r :
  matcher_for t r →
  Forall (λ f, exported (Name f) = true)
         (struct_fields (reflect_TypeOf (captureGroups r))).
Proof.
  intros [-> Hfs]. simpl. eapply Forall_impl; [exact Hfs|]. by intros f [? _].
Qed.

(** [Find] on a pointer to a struct variable of the matcher's type. *)
Lemma Find_spec t r s p cell (h : Heap) :
  matcher_for t r →
  h !! p = Some cell →
  cell_has_type t cell →
  Find r s (VPtr (TStruct t) (Some p)) h =
    match FindStringSubmatch (pattern r) s with
    | [] => (Returned false, h)
    | submatches => (Returned true, <[p := resolvedFields r submatches]> h)
    end.
Proof.
  intros Hm Hp Hty. unfold Find. cbn [reflect_TypeOf].
  destruct Hm as [HT Hfs]. rewrite HT. unfold PtrTo.
  destruct (decide (TPtr (TStruct t) ≠ TPtr (TStruct t))); [done|].
  destruct (FindStringSubmatch (pattern r) s) as [|m ms] eqn:Hsub; [done|].
  destruct (decide (length (m :: ms) = 0)); [done|].
  unfold bind. cbn [ptr_Elem].
  rewrite (assignSubmatchesToStruct_at r (m :: ms) (EPtr (Some p)) p cell h);
    [done| |by right|done|].
  - eapply matcher_for_exported. by split.
  - eapply matcher_for_cell_ready; [by split|done].
Qed.

End assign.

(** ** Filling a slice *)

Section findall.
Context `{!RegexpEngine} `{!TemplateEngine}.

Lemma slots_ready_insert r (h : Heap) slice p submatches :
  slots_ready r h slice →
  slots_ready r (<[p := resolvedFields r submatches]> h) slice.
Proof.
  unfold slots_ready. intros Hs. eapply Forall_impl; [exact Hs|].
  intros e [Hne Ht]. split; [done|]. intros q Hq.
  destruct (decide (p = q)) as [->|Hpq].
  - exists (resolvedFields r submatches). rewrite lookup_insert_eq.
    split; [done|apply resolvedFields_ready].
  - rewrite lookup_insert_ne by done. by apply Ht.
Qed.

#[local] Arguments assignSubmatchesToStruct : simpl never.

Lemma rangeSubmatches_spec r slice :
  Forall (λ f, exported (Name f) = true)
         (struct_fields (reflect_TypeOf (captureGroups r))) →
  ∀ allSubmatches k (h : Heap),
    slots_ready r h slice →
    k + length allSubmatches ≤ length slice →
    rangeSubmatches r slice k allSubmatches h =
      (Returned (), writeSubmatches r slice k allSubmatches h).
Proof.
  intros Hexp. induction allSubmatches as [|sub rest IH]; intros k h Hs Hk; simpl in *;
    [done|].
  destruct (lookup_lt_is_Some_2 slice k) as [e He]; [lia|].
  unfold bind. rewrite He. simpl.
  pose proof Hs as Hs'. unfold slots_ready in Hs'. rewrite Forall_forall in Hs'.
  destruct (Hs' e (list_elem_of_lookup_2 _ _ _ He)) as [Hne Ht].
  destruct e as [p|[p|]|]; simpl in *; [| | |done].
  - destruct (Ht p eq_refl) as (cell & Hp & Hready).
    rewrite (assignSubmatchesToStruct_at r sub (EStruct p) p cell h); auto.
    apply IH; [by apply slots_ready_insert|lia].
  - destruct (Ht p eq_refl) as (cell & Hp & Hready).
    rewrite (assignSubmatchesToStruct_at r sub (EPtr (Some p)) p cell h); auto.
    apply IH; [by apply slots_ready_insert|lia].
  - unfold ret. apply IH; [done|lia].
Qed.

(** A location that is the target of no slot in the range is not written. *)
Lemma writeSubmatches_lookup_other r slice allSubmatches k (h : Heap) q :
  (∀ j e, k ≤ j < k + length allSubmatches →
          slice !! j = Some e → slot_target e ≠ Some q) →
  writeSubmatches r slice k allSubmatches h !! q = h !! q.
Proof.
  revert k h. induction allSubmatches as [|sub rest IH]; intros k h Hq; simpl in *; [done|].
  rewrite IH by (intros j e Hj; apply Hq; lia).
  destruct (slice !! k) as [e|] eqn:He; simpl; [|done].
  destruct (slot_target e) as [p|] eqn:Hp; [|done].
  rewrite lookup_insert_ne; [done|]. intros ->.
  apply (Hq k e); [lia|done|done].
Qed.

Lemma slots_distinct_inj slice i j e e' p :
  slots_distinct slice →
  slice !! i = Some e → slice !! j = Some e' →
  slot_target e = Some p → slot_target e' = Some p →
  i = j.
Proof.
  unfold slots_distinct. revert i j.
  induction slice as [|x slice IH]; intros i j Hnd Hi Hj Hp Hp'.
  - by rewrite lookup_nil in Hi.
  - assert (∀ y n, slice !! n = Some y → slot_target y = Some p →
                   p ∈ omap slot_target slice) as Hin.
    { intros y n Hn Hy. apply list_elem_of_omap. exists y.
      split; [by eapply list_elem_of_lookup_2|done]. }
    destruct i as [|i], j as [|j]; simpl in *.
    + done.
    + injection Hi as ->. rewrite Hp in Hnd. apply NoDup_cons in Hnd as [Hnin _].
      destruct Hnin. by eapply Hin.
    + injection Hj as ->. rewrite Hp' in Hnd. apply NoDup_cons in Hnd as [Hnin _].
      destruct Hnin. by eapply Hin.
    + f_equal. apply IH; try done.
      destruct (slot_target x); [by apply NoDup_cons in Hnd as [_ ?]|done].
Qed.

(** Match [j] ends up in the target of slot [j]. *)
Lemma writeSubmatches_lookup_slot r slice allSubmatches k (h : Heap) j e p sub :
  slots_distinct slice →
  slice !! j = Some e → slot_target e = Some p →
  k ≤ j → allSubmatches !! (j - k) = Some sub →
  writeSubmatches r slice k allSubmatches h !! p = Some (resolvedFields r sub).
Proof.
  intros Hd He Hp. revert k h.
  induction allSubmatches as [|m rest IH]; intros k h Hk Hsub; simpl in *.
  - by rewrite lookup_nil in Hsub.
  - destruct (decide (j = k)) as [->|Hne].
    + rewrite Nat.sub_diag in Hsub. injection Hsub as ->.
      rewrite writeSubmatches_lookup_other.
      * rewrite He. simpl. rewrite Hp. by rewrite lookup_insert_eq.
      * intros j' e' Hj' He' Hp'.
        assert (j' = k) by (eapply slots_distinct_inj; eauto). lia.
    + apply IH; [lia|].
      replace (j - k) with (S (j - S k)) in Hsub by lia. exact Hsub.
Qed.

(** [FindAll] on a slice of structs or of pointers. *)
Lemma FindAll_spec t r s elem slice (h : Heap) :
  matcher_for t r →
  elem = TStruct t ∨ elem = TPtr (TStruct t) →
  slots_ready r h slice →
  let allSubmatches :=
    FindAllStringSubmatch (pattern r) s (Z.of_nat (length slice)) in
  length allSubmatches ≤ length slice ∧
  FindAll r s (VSlice elem slice) h =
    (Returned (length allSubmatches), writeSubmatches r slice 0 allSubmatches h).
Proof.
  intros Hm Helem Hs all.
  assert (length all ≤ length slice) as Hle.
  { unfold all. rewrite FindAllStringSubmatch_limit by lia.
    rewrite length_take, Nat2Z.id. lia. }
  split; [done|].
  unfold FindAll. cbn [reflect_TypeOf slice_elems].
  pose proof Hm as [HT _]. rewrite HT. unfold SliceOf, PtrTo.
  destruct (decide (TSlice elem ≠ TSlice (TStruct t) ∧
                    TSlice elem ≠ TSlice (TPtr (TStruct t)))) as [[H1 H2]|_].
  { destruct Helem as [-> | ->]; [by destruct H1|by destruct H2]. }
  destruct (decide (length slice = 0)) as [Hz|Hnz].
  - assert (all = []) as -> by (apply nil_length_inv; lia). done.
  - fold all. unfold bind.
    rewrite rangeSubmatches_spec; [done| |done|simpl; lia].
    by eapply matcher_for_exported.
Qed.

End findall.

(** * The properties of the specification *)

Section specification.
Context `{!RegexpEngine} `{!TemplateEngine}.

(** C2: when a field has several capture groups (one per alternation branch
    of the template) and the input matches so that the groups before the
    participating one are empty, [Find] gives the field the submatch of the
    branch that took part: the index list is ascending, the walk goes through
    it from the left and assigns the first submatch that is present and not
    empty, so the field is neither left empty nor filled from a branch that
    did not take part. *)
Theorem Find_resolves_field_from_participating_branch
    patternTemplate t fields r s p cell (h : Heap) k f pre i post v :
  cell_has_type t fields →
  Compile patternTemplate (VStruct t fields) = Ok r →
  h !! p = Some cell →
  cell_has_type t cell →
  type_fields t !! k = Some f →
  submatchIndicesByFieldName r !! Name f = Some (pre ++ i :: post) →
  Forall (λ j, FindStringSubmatch (pattern r) s !! j = Some "") pre →
  FindStringSubmatch (pattern r) s !! i = Some v →
  v ≠ "" →
  StronglySorted lt (pre ++ i :: post) ∧
  findFirstNonEmptySubmatchForField r (Name f)
    (FindStringSubmatch (pattern r) s) = v ∧
  ∃ h' cell',
    Find r s (VPtr (TStruct t) (Some p)) h = (Returned true, h') ∧
    h' !! p = Some cell' ∧
    cell' !! k = Some (FString v).
Proof.
  intros Hcg Hc Hp Hty Hf Hidx Hpre Hi Hv.
  pose proof (Compile_matcher_for _ _ _ _ Hcg Hc) as Hm.
  assert (findFirstNonEmptySubmatchForField r (Name f)
            (FindStringSubmatch (pattern r) s) = v) as Hres.
  { unfold findFirstNonEmptySubmatchForField. rewrite Hidx. simpl.
    by apply firstNonEmptySubmatch_skips_empty. }
  split.
  { pose proof (Compile_indices_ascending _ _ _ (Name f) Hc) as Hs.
    by rewrite Hidx in Hs. }
  split; [done|].
  rewrite (Find_spec t r s p cell h Hm Hp Hty).
  destruct (FindStringSubmatch (pattern r) s) as [|m ms] eqn:Hsub.
  { by rewrite lookup_nil in Hi. }
  eexists _, _. split; [done|]. split; [by rewrite lookup_insert_eq|].
  rewrite (resolvedFields_lookup r (m :: ms) k f).
  - by rewrite Hres.
  - destruct Hm as [-> _]. done.
Qed.

(** C3: [Find] on a pointer to a struct of the compiled type returns false
    and leaves the struct as it was when the composite pattern does not
    match, and returns true when it matches, whatever the fields resolve
    to: it then writes the resolved value of every field, also when every
    one of them is empty. *)
Theorem Find_found_iff_pattern_matches
    patternTemplate t fields r s p cell (h : Heap) :
  cell_has_type t fields →
  Compile patternTemplate (VStruct t fields) = Ok r →
  h !! p = Some cell →
  cell_has_type t cell →
  (FindStringSubmatch (pattern r) s = [] →
   Find r s (VPtr (TStruct t) (Some p)) h = (Returned false, h)) ∧
  (FindStringSubmatch (pattern r) s ≠ [] →
   Find r s (VPtr (TStruct t) (Some p)) h =
     (Returned true,
      <[p := resolvedFields r (FindStringSubmatch (pattern r) s)]> h)).
Proof.
  intros Hcg Hc Hp Hty.
  pose proof (Compile_matcher_for _ _ _ _ Hcg Hc) as Hm.
  rewrite (Find_spec t r s p cell h Hm Hp Hty).
  destruct (FindStringSubmatch (pattern r) s) as [|m ms]; split; done.
Qed.

(** What [Find] does to one field on a match, whatever the field held
    before: it holds the resolver's answer afterwards, the empty string when
    no index of the field has a value. *)
Lemma Find_sets_every_field
    patternTemplate t fields r s p cell (h : Heap) k f :
  cell_has_type t fields →
  Compile patternTemplate (VStruct t fields) = Ok r →
  h !! p = Some cell →
  cell_has_type t cell →
  type_fields t !! k = Some f →
  FindStringSubmatch (pattern r) s ≠ [] →
  ∃ h' cell',
    Find r s (VPtr (TStruct t) (Some p)) h = (Returned true, h') ∧
    h' !! p = Some cell' ∧
    cell' !! k = Some (FString (findFirstNonEmptySubmatchForField r (Name f)
                                  (FindStringSubmatch (pattern r) s))).
Proof.
  intros Hcg Hc Hp Hty Hf Hsub.
  pose proof (Compile_matcher_for _ _ _ _ Hcg Hc) as Hm.
  rewrite (Find_spec t r s p cell h Hm Hp Hty).
  destruct (FindStringSubmatch (pattern r) s) as [|m ms]; [done|].
  eexists _, _. split; [done|]. split; [by rewrite lookup_insert_eq|].
  apply resolvedFields_lookup. by destruct Hm as [-> _].
Qed.

(** The submatches that the engine returns for a compiled pattern cover
    every index of every field: at match time the bounds check of the
    resolver never fires. *)
Lemma Compile_indices_within_match patternTemplate cg r s field :
  Compile patternTemplate cg = Ok r →
  FindStringSubmatch (pattern r) s ≠ [] →
  Forall (λ i, i < length (FindStringSubmatch (pattern r) s))
         (default [] (submatchIndicesByFieldName r !! field)).
Proof.
  intros Hc Hsub.
  destruct (FindStringSubmatch_length (pattern r) s) as [Hnil | ->]; [done|].
  by eapply Compile_indices_in_range.
Qed.

(** The early return of the resolver shows on a list that is not ascending,
    which [Compile] never builds: the walk stops at index 5 and does not
    reach index 1. *)
Remark early_return_on_descending_indices :
  firstNonEmptySubmatch [5; 1] ["whole"; "value"] = "" ∧
  walkSkippingAbsent [5; 1] ["whole"; "value"] = "value".
Proof. done. Qed.

(** C6: for a compiled matcher, an index of a field that lies beyond the
    submatches of the match at hand counts as absent: the resolver returns
    what the walk that skips such an index and goes on returns, which is what
    the resolver itself returns once the indices out of bounds are taken out
    of the list. *)
Theorem out_of_bounds_index_counts_as_absent
    patternTemplate cg r field submatches :
  Compile patternTemplate cg = Ok r →
  findFirstNonEmptySubmatchForField r field submatches =
    walkSkippingAbsent
      (default [] (submatchIndicesByFieldName r !! field)) submatches ∧
  findFirstNonEmptySubmatchForField r field submatches =
    firstNonEmptySubmatch
      (filter (λ i, i < length submatches)
              (default [] (submatchIndicesByFieldName r !! field)))
      submatches.
Proof.
  intros Hc.
  pose proof (Compile_indices_ascending _ _ _ field Hc) as Hs.
  unfold findFirstNonEmptySubmatchForField.
  rewrite <- walkSkippingAbsent_filter.
  split; by apply firstNonEmptySubmatch_ascending.
Qed.

(** C4: [FindAll] on a slice of [C] slots returns a count that is at most
    [C], namely the smaller of [C] and the number of matches in the input;
    when the input has more than [C] matches the count is [C] and slot [j]
    holds the resolved fields of match [j] of the input, for every [j]
    below [C]: the first [C] matches, in input order. *)
Theorem FindAll_bounded_by_slice_length
    patternTemplate t fields r s elem slice (h : Heap) :
  cell_has_type t fields →
  Compile patternTemplate (VStruct t fields) = Ok r →
  elem = TStruct t ∨ elem = TPtr (TStruct t) →
  slots_ready r h slice →
  slots_distinct slice →
  ∃ n h',
    FindAll r s (VSlice elem slice) h = (Returned n, h') ∧
    n ≤ length slice ∧
    n = length slice `min` length (FindAllStringSubmatch (pattern r) s (-1)) ∧
    (length slice < length (FindAllStringSubmatch (pattern r) s (-1)) →
     n = length slice ∧
     ∀ j e p, slice !! j = Some e → slot_target e = Some p →
       ∃ submatches,
         FindAllStringSubmatch (pattern r) s (-1) !! j = Some submatches ∧
         h' !! p = Some (resolvedFields r submatches)).
Proof.
  intros Hcg Hc Helem Hs Hd.
  pose proof (Compile_matcher_for _ _ _ _ Hcg Hc) as Hm.
  destruct (FindAll_spec t r s elem slice h Hm Helem Hs) as [Hle ->].
  eexists _, _. split; [done|]. split; [done|].
  rewrite FindAllStringSubmatch_limit by lia. rewrite Nat2Z.id, length_take.
  split; [lia|]. intros Hmore. split; [lia|].
  intros j e p He Hp.
  assert (j < length slice) as Hj by (by eapply lookup_lt_Some).
  destruct (lookup_lt_is_Some_2 (FindAllStringSubmatch (pattern r) s (-1)) j)
    as [sub Hsub]; [lia|].
  exists sub. split; [done|].
  apply (writeSubmatches_lookup_slot r slice _ 0 h j e p sub Hd He Hp); [lia|].
  rewrite Nat.sub_0_r. by rewrite lookup_take_lt.
Qed.

(** C5: [FindAll] on a slice of pointers passes over the nil slots: the count
    still is the number of matches obtained, match [j] is written to the
    struct behind slot [j] whenever that slot is not nil, whatever slots
    before it are nil, and no struct other than those behind the non-nil
    slots below the count is touched, so the match at the position of a nil
    slot is written nowhere. *)
Theorem FindAll_skips_nil_slots
    patternTemplate t fields r s slice (h : Heap) :
  cell_has_type t fields →
  Compile patternTemplate (VStruct t fields) = Ok r →
  slots_ready r h slice →
  slots_distinct slice →
  ∃ h',
    FindAll r s (VSlice (TPtr (TStruct t)) slice) h =
      (Returned (length (FindAllStringSubmatch (pattern r) s
                           (Z.of_nat (length slice)))), h') ∧
    (∀ j p submatches,
       slice !! j = Some (EPtr (Some p)) →
       FindAllStringSubmatch (pattern r) s (Z.of_nat (length slice)) !! j
         = Some submatches →
       h' !! p = Some (resolvedFields r submatches)) ∧
    (∀ q,
       (∀ j e, j < length (FindAllStringSubmatch (pattern r) s
                             (Z.of_nat (length slice))) →
               slice !! j = Some e → slot_target e ≠ Some q) →
       h' !! q = h !! q).
Proof.
  intros Hcg Hc Hs Hd.
  pose proof (Compile_matcher_for _ _ _ _ Hcg Hc) as Hm.
  destruct (FindAll_spec t r s (TPtr (TStruct t)) slice h Hm (or_intror eq_refl) Hs)
    as [Hle ->].
  eexists. split; [done|]. split.
  - intros j p sub Hj Hsub.
    apply (writeSubmatches_lookup_slot r slice _ 0 h j _ p sub Hd Hj eq_refl); [lia|].
    by rewrite Nat.sub_0_r.
  - intros q Hq. apply writeSubmatches_lookup_other.
    intros j e Hj. apply Hq. lia.
Qed.

(** C7 (as amended): for a schema whose fields all pass the checks (exported
    string fields with a non-empty sub-pattern that compiles alone), if the
    template can be filled with the wrapped fields and the composite pattern
    compiles, [Compile] succeeds, and its index map is the result of the scan
    of the group names of the compiled pattern in order: a field whose name
    is among the group names is mapped to the ascending list of all positions
    carrying its name, which is not empty, and a field whose name is not
    among them has no entry. *)
Theorem Compile_indexes_group_names
    patternTemplate t fields dest names composite re :
  Forall2 field_accepted (type_fields t) fields →
  wrapFields (type_fields t) fields = Ok (dest, names) →
  fillPatternTemplate patternTemplate (VStruct t dest) = Ok composite →
  regexp_Compile composite = Ok re →
  ∃ r,
    Compile patternTemplate (VStruct t fields) = Ok r ∧
    pattern r = re ∧
    captureGroups r = VStruct t dest ∧
    ∀ f, f ∈ type_fields t →
      (Name f ∈ SubexpNames re →
       submatchIndicesByFieldName r !! Name f
         = Some (positionsOf (Name f) 0 (SubexpNames re)) ∧
       positionsOf (Name f) 0 (SubexpNames re) ≠ [] ∧
       StronglySorted lt (positionsOf (Name f) 0 (SubexpNames re))) ∧
      (Name f ∉ SubexpNames re →
       submatchIndicesByFieldName r !! Name f = None).
Proof.
  intros Hacc Hw Hfill Hre.
  pose proof (wrapFields_Ok _ _ _ _ (eq_sym (Forall2_length _ _ _ Hacc)) Hw)
    as (_ & Hnames & _).
  eexists. split.
  { unfold Compile. cbn [reflect_TypeOf type_Kind wrapFieldsInCaptureGroups].
    destruct (decide (Struct ≠ Struct)); [done|].
    rewrite Hw. simpl. rewrite Hfill. simpl. by rewrite Hre. }
  simpl. split; [done|]. split; [done|].
  intros f Hf.
  assert (Name f ∈ names) as Hin.
  { rewrite Hnames. apply list_elem_of_fmap. by exists f. }
  rewrite indexSubmatches_lookup, lookup_empty.
  destruct (decide (Name f ∈ names)); [|done].
  split.
  - intros Hsub. pose proof (positionsOf_nonempty (Name f) 0 _ Hsub) as Hne.
    split; [|split; [done|apply positionsOf_ascending]].
    by destruct (positionsOf (Name f) 0 (SubexpNames re)).
  - intros Hsub. by rewrite (positionsOf_empty (Name f) 0 _ Hsub).
Qed.

(** C8: the fields are checked in declaration order; when the fields before
    field [k] pass and field [k] is an exported string, an empty
    sub-pattern makes [Compile] fail with the error that names the field
    as empty, and a sub-pattern that does not compile alone makes it fail
    with the parse error that names the field.  The error is the one of
    [wrapFieldsInCaptureGroups]: it is the same for every template, no
    composite pattern is built, and no matcher is returned. *)
Theorem Compile_rejects_first_bad_field
    patternTemplate t fields k f sub :
  Forall2 field_accepted (take k (type_fields t)) (take k fields) →
  type_fields t !! k = Some f →
  fields !! k = Some (FString sub) →
  exported (Name f) = true →
  (sub = "" →
   wrapFieldsInCaptureGroups (VStruct t fields)
     = Err ("field " +:+ Name f +:+ " is empty") ∧
   Compile patternTemplate (VStruct t fields)
     = Err ("field " +:+ Name f +:+ " is empty")) ∧
  (∀ err, sub ≠ "" → regexp_Compile sub = Err err →
   wrapFieldsInCaptureGroups (VStruct t fields)
     = Err ("error parsing regex in field " +:+ Name f +:+ ": " +:+ err) ∧
   Compile patternTemplate (VStruct t fields)
     = Err ("error parsing regex in field " +:+ Name f +:+ ": " +:+ err)).
Proof.
  intros Hacc Hf Hv Hexp.
  assert (∀ e, wrapField f (FString sub) = Err e →
               wrapFields (type_fields t) fields = Err e) as Hloop.
  { intros e He. revert Hacc Hf Hv.
    generalize (type_fields t) as fs. revert fields.
    induction k as [|k IH]; intros [|v vs] [|g fs] Hacc Hf Hv;
      simpl in Hacc, Hf, Hv; try done; cbn [wrapFields].
    - injection Hf as ->. injection Hv as ->. by rewrite He.
    - apply Forall2_cons in Hacc as [Hg Hrest].
      apply wrapField_accepted in Hg as (pat & -> & ->). cbn [result_bind].
      by rewrite (IH vs fs Hrest Hf Hv). }
  assert (∀ e, wrapField f (FString sub) = Err e →
               wrapFieldsInCaptureGroups (VStruct t fields) = Err e ∧
               Compile patternTemplate (VStruct t fields) = Err e) as Hboth.
  { intros e He. apply Hloop in He.
    unfold Compile. cbn [reflect_TypeOf type_Kind wrapFieldsInCaptureGroups].
    destruct (decide (Struct ≠ Struct)); [done|]. by rewrite He. }
  split.
  - intros ->. apply Hboth. unfold wrapField. by rewrite Hexp.
  - intros err Hne Herr. apply Hboth. unfold wrapField. rewrite Hexp. simpl.
    destruct (decide (sub = "")); [done|]. by rewrite Herr.
Qed.

(** C9: for a compiled matcher, [Find] and [FindAll] panic with the message
    of their type check, and leave the heap as it was, whenever the output
    is not a pointer to (for [FindAll]: a slice of, or of pointers to) a
    struct with the field set of the schema.  The panic is raised whatever
    the pattern would match: no match is attempted before it. *)
Theorem shape_mismatch_panics
    patternTemplate t fields r s values (h : Heap) :
  Compile patternTemplate (VStruct t fields) = Ok r →
  (pointer_shape values ≠ Some (type_fields t) →
   Find r s values h = (Panicked (Find_mismatch t values), h)) ∧
  (slice_shape values ≠ Some (type_fields t) →
   FindAll r s values h = (Panicked (FindAll_mismatch t values), h)).
Proof.
  intros Hc.
  apply Compile_Ok in Hc as (t' & fields' & dest & names & comp & [= <- <-] & _ & _ & _ & Hcg & _).
  split; intros Hshape.
  - unfold Find. rewrite Hcg. cbn [reflect_TypeOf].
    destruct (decide (reflect_TypeOf values ≠ PtrTo (TStruct t))) as [_|Heq]; [done|].
    destruct Hshape. unfold pointer_shape.
    destruct (decide (reflect_TypeOf values = PtrTo (TStruct t))) as [->|?]; done.
  - unfold FindAll. rewrite Hcg. cbn [reflect_TypeOf].
    destruct (decide (reflect_TypeOf values ≠ SliceOf (TStruct t) ∧
                      reflect_TypeOf values ≠ SliceOf (PtrTo (TStruct t))))
      as [_|Heq]; [done|].
    destruct Hshape. unfold slice_shape.
    destruct (decide (reflect_TypeOf values = SliceOf (TStruct t))) as [->|?]; [done|].
    destruct (decide (reflect_TypeOf values = SliceOf (PtrTo (TStruct t)))) as [->|?];
      [done|].
    destruct Heq. done.
Qed.

(** C10: the check is on the identity of the type.  [Find] panics unless the
    output has exactly the type pointer-to-[t], [FindAll] panics unless it has
    exactly the type slice-of-[t] or slice-of-pointer-to-[t], where [t] is
    the struct type given to [Compile]; in particular a struct type [u] with
    the same fields as [t] that is another type is refused by both, as a
    pointer, as a slice and as a slice of pointers.  An output of the exact
    type passes the check. *)
Theorem type_check_is_by_identity
    patternTemplate t fields r s (h : Heap) :
  Compile patternTemplate (VStruct t fields) = Ok r →
  (∀ values, reflect_TypeOf values ≠ TPtr (TStruct t) →
     Find r s values h = (Panicked (Find_mismatch t values), h)) ∧
  (∀ values, reflect_TypeOf values ≠ TSlice (TStruct t) →
     reflect_TypeOf values ≠ TSlice (TPtr (TStruct t)) →
     FindAll r s values h = (Panicked (FindAll_mismatch t values), h)) ∧
  (∀ u p slice, type_fields u = type_fields t → u ≠ t →
     Find r s (VPtr (TStruct u) p) h
       = (Panicked (Find_mismatch t (VPtr (TStruct u) p)), h) ∧
     FindAll r s (VSlice (TStruct u) slice) h
       = (Panicked (FindAll_mismatch t (VSlice (TStruct u) slice)), h) ∧
     FindAll r s (VSlice (TPtr (TStruct u)) slice) h
       = (Panicked (FindAll_mismatch t (VSlice (TPtr (TStruct u)) slice)), h)) ∧
  (∀ p, FindStringSubmatch (pattern r) s = [] →
     Find r s (VPtr (TStruct t) p) h = (Returned false, h)) ∧
  FindAll r s (VSlice (TStruct t) []) h = (Returned 0, h) ∧
  FindAll r s (VSlice (TPtr (TStruct t)) []) h = (Returned 0, h).
Proof.
  intros Hc.
  apply Compile_Ok in Hc as (t' & fields' & dest & names & comp & [= <- <-] & _ & _ & _ & Hcg & _).
  assert (∀ values, reflect_TypeOf values ≠ TPtr (TStruct t) →
            Find r s values h = (Panicked (Find_mismatch t values), h)) as HFind.
  { intros values Hne. unfold Find. rewrite Hcg. cbn [reflect_TypeOf].
    by destruct (decide (reflect_TypeOf values ≠ PtrTo (TStruct t))). }
  assert (∀ values, reflect_TypeOf values ≠ TSlice (TStruct t) →
            reflect_TypeOf values ≠ TSlice (TPtr (TStruct t)) →
            FindAll r s values h = (Panicked (FindAll_mismatch t values), h)) as HFindAll.
  { intros values Hne1 Hne2. unfold FindAll. rewrite Hcg. cbn [reflect_TypeOf].
    destruct (decide (reflect_TypeOf values ≠ SliceOf (TStruct t) ∧
                      reflect_TypeOf values ≠ SliceOf (PtrTo (TStruct t))))
      as [_|Hn]; [done|]. by destruct Hn. }
  split; [exact HFind|]. split; [exact HFindAll|]. split.
  { intros u p slice _ Hne. split; [|split].
    - apply HFind. simpl. congruence.
    - apply HFindAll; simpl; congruence.
    - apply HFindAll; simpl; congruence. }
  split.
  { intros p Hnil. unfold Find. rewrite Hcg. cbn [reflect_TypeOf]. unfold PtrTo.
    destruct (decide (TPtr (TStruct t) ≠ TPtr (TStruct t))); [done|].
    rewrite Hnil. done. }
  unfold FindAll. rewrite Hcg. cbn [reflect_TypeOf slice_elems]. unfold SliceOf, PtrTo.
  split.
  - destruct (decide (_ ∧ _)) as [[Hn _]|_]; [by destruct Hn|]. done.
  - destruct (decide (_ ∧ _)) as [[_ Hn]|_]; [by destruct Hn|]. done.
Qed.

End specification.

(** * Further properties of the package *)

Section coverage.
Context `{!RegexpEngine} `{!TemplateEngine}.

(** ** [Compile] and [wrapFieldsInCaptureGroups] *)

(** X1: a value that is not a struct (a string, a pointer to a struct, a
    slice) is refused by [Compile] with the message that prints its type,
    whatever the template, and [MustCompile] panics with that message and
    leaves the heap alone. *)
Theorem Compile_rejects_non_struct patternTemplate cg (h : Heap) :
  type_Kind (reflect_TypeOf cg) ≠ Struct →
  Compile patternTemplate cg
    = Err ("captureGroups must be a struct, is a "
           +:+ type_String (reflect_TypeOf cg)) ∧
  MustCompile patternTemplate cg h
    = (Panicked ("captureGroups must be a struct, is a "
                 +:+ type_String (reflect_TypeOf cg)), h).
Proof.
  intros Hk.
  assert (Compile patternTemplate cg
          = Err ("captureGroups must be a struct, is a "
                 +:+ type_String (reflect_TypeOf cg))) as Hc.
  { unfold Compile. by destruct (decide (type_Kind (reflect_TypeOf cg) ≠ Struct)). }
  split; [done|]. unfold MustCompile. by rewrite Hc.
Qed.

(** The loop fails with the error of the first field that is refused. *)
Lemma wrapFields_first_refused fs vs k f v e :
  Forall2 field_accepted (take k fs) (take k vs) →
  fs !! k = Some f → vs !! k = Some v →
  wrapField f v = Err e →
  wrapFields fs vs = Err e.
Proof.
  intros Hacc Hf Hv He. revert fs vs Hacc Hf Hv.
  induction k as [|k IH]; intros [|g fs] [|w vs] Hacc Hf Hv;
    simpl in Hacc, Hf, Hv; try done; cbn [wrapFields].
  - injection Hf as ->. injection Hv as ->. by rewrite He.
  - apply Forall2_cons in Hacc as [Hg Hrest].
    apply wrapField_accepted in Hg as (pat & -> & ->). cbn [result_bind].
    by rewrite (IH fs vs Hrest Hf Hv).
Qed.

Lemma Compile_wrap_error patternTemplate t fields e :
  wrapFields (type_fields t) fields = Err e →
  wrapFieldsInCaptureGroups (VStruct t fields) = Err e ∧
  Compile patternTemplate (VStruct t fields) = Err e.
Proof.
  intros He. unfold Compile. cbn [reflect_TypeOf type_Kind wrapFieldsInCaptureGroups].
  destruct (decide (Struct ≠ Struct)); [done|]. by rewrite He.
Qed.

(** X2: with the fields before field [k] accepted, a field [k] that is not
    a string makes [Compile] fail with the message that names the field and
    its type, and a string field [k] that is not exported makes it fail
    with the message that the field is read-only, whatever its sub-pattern
    is; the kind is checked before the name. *)
Theorem Compile_rejects_non_string_or_unexported_field
    patternTemplate t fields k f v :
  Forall2 field_accepted (take k (type_fields t)) (take k fields) →
  type_fields t !! k = Some f →
  fields !! k = Some v →
  (∀ z, v = FInt z →
     Compile patternTemplate (VStruct t fields)
       = Err ("fields must be strings, " +:+ Name f +:+ " is a "
              +:+ type_String (fieldType_GoType (Type_ f)))) ∧
  (∀ sub, v = FString sub → exported (Name f) = false →
     Compile patternTemplate (VStruct t fields)
       = Err ("fields must be setable, " +:+ Name f +:+ " is read-only")).
Proof.
  intros Hacc Hf Hv. split.
  - intros z ->. apply Compile_wrap_error.
    by apply (wrapFields_first_refused _ _ k f (FInt z)).
  - intros sub -> Hexp. apply Compile_wrap_error.
    apply (wrapFields_first_refused _ _ k f (FString sub)); try done.
    unfold wrapField. by rewrite Hexp.
Qed.

Lemma wrapFields_Ok_dest fs vs dest names :
  wrapFields fs vs = Ok (dest, names) →
  dest = zip_with wrapInGroup (take (length vs) fs) vs.
Proof.
  revert vs dest names. induction fs as [|f fs IH]; intros [|v vs] dest names;
    cbn [wrapFields]; try (by intros [= <- <-]).
  destruct (wrapField f v) as [d|e] eqn:Hd; cbn [result_bind]; [|done].
  destruct (wrapFields fs vs) as [[dest' names']|e] eqn:Hrest; cbn [result_bind]; [|done].
  intros [= <- <-]. apply wrapField_Ok in Hd as (_ & pat & -> & ->).
  simpl. f_equal. by eapply IH.
Qed.

(** X3: on a struct value (one field value per field of its type)
    [wrapFieldsInCaptureGroups] succeeds exactly when every field passes the
    four checks, and then it returns a struct of the same type in which
    every sub-pattern stands inside the group named after its field,
    together with the field names in declaration order. *)
Theorem wrapFieldsInCaptureGroups_accepts_iff t fields wrapped names :
  length fields = length (type_fields t) →
  wrapFieldsInCaptureGroups (VStruct t fields) = Ok (wrapped, names) ↔
  Forall2 field_accepted (type_fields t) fields ∧
  wrapped = VStruct t (zip_with wrapInGroup (type_fields t) fields) ∧
  names = Name <$> type_fields t.
Proof.
  intros Hlen. cbn [wrapFieldsInCaptureGroups]. split.
  - destruct (wrapFields (type_fields t) fields) as [[dest ns]|e] eqn:Hw;
      cbn [result_bind]; [|done].
    intros [= <- <-].
    pose proof (wrapFields_Ok_dest _ _ _ _ Hw) as ->.
    apply wrapFields_Ok in Hw as (Hacc & -> & _); [|done].
    split; [done|]. split; [|done].
    by rewrite Hlen, firstn_all.
  - intros (Hacc & -> & ->).
    destruct (wrapFields_accepted _ _ Hacc) as (dest & Hw & _).
    rewrite Hw. cbn [result_bind].
    pose proof (wrapFields_Ok_dest _ _ _ _ Hw) as ->.
    by rewrite Hlen, firstn_all.
Qed.

(** X4: once the fields are accepted, an error of the template (of its
    parsing, before anything is executed, or of its execution) is returned
    by [Compile] as it is, and an error of the composite pattern is returned
    behind the text that quotes the composite pattern. *)
Theorem Compile_propagates_template_and_pattern_errors
    patternTemplate t fields dest names :
  wrapFields (type_fields t) fields = Ok (dest, names) →
  (∀ e groupStruct, template_Parse patternTemplate = Err e →
     fillPatternTemplate patternTemplate groupStruct = Err e) ∧
  (∀ e, fillPatternTemplate patternTemplate (VStruct t dest) = Err e →
     Compile patternTemplate (VStruct t fields) = Err e) ∧
  (∀ composite e,
     fillPatternTemplate patternTemplate (VStruct t dest) = Ok composite →
     regexp_Compile composite = Err e →
     Compile patternTemplate (VStruct t fields)
       = Err ("error parsing `" +:+ composite +:+ "`: " +:+ e)).
Proof.
  intros Hw. split; [|split].
  - intros e g He. unfold fillPatternTemplate. by rewrite He.
  - intros e He. unfold Compile.
    cbn [reflect_TypeOf type_Kind wrapFieldsInCaptureGroups].
    destruct (decide (Struct ≠ Struct)); [done|].
    rewrite Hw. cbn [result_bind]. by rewrite He.
  - intros composite e Hfill He. unfold Compile.
    cbn [reflect_TypeOf type_Kind wrapFieldsInCaptureGroups].
    destruct (decide (Struct ≠ Struct)); [done|].
    rewrite Hw. cbn [result_bind]. rewrite Hfill. cbn [result_bind]. by rewrite He.
Qed.

(** X5: the matcher keeps the struct it was compiled from, of the same type,
    with every field wrapped in its group. *)
Theorem Compile_keeps_wrapped_struct patternTemplate t fields r :
  cell_has_type t fields →
  Compile patternTemplate (VStruct t fields) = Ok r →
  captureGroups r = VStruct t (zip_with wrapInGroup (type_fields t) fields) ∧
  cell_has_type t (zip_with wrapInGroup (type_fields t) fields).
Proof.
  intros Hty Hc.
  assert (length fields = length (type_fields t)) as Hlen
    by (symmetry; by eapply Forall2_length).
  apply Compile_Ok in Hc
    as (t' & fields' & dest & names & comp & [= <- <-] & Hw & _ & _ & -> & _).
  pose proof (wrapFields_Ok_dest _ _ _ _ Hw) as ->.
  rewrite Hlen, firstn_all. split; [done|].
  unfold cell_has_type in *. clear Hw Hlen.
  induction Hty as [|f v fs vs Hk _ IH]; simpl; constructor; [|done].
  by destruct v.
Qed.

(** ** The index of submatches *)

Lemma elem_of_positionsOf field k names i :
  i ∈ positionsOf field k names ↔ k ≤ i ∧ names !! (i - k) = Some field.
Proof.
  revert k. induction names as [|n names IH]; intros k; simpl.
  - rewrite elem_of_nil, lookup_nil. split; [done|by intros [_ ?]].
  - assert (i ∈ positionsOf field (S k) names ↔
            k < i ∧ (n :: names) !! (i - k) = Some field) as Hrest.
    { rewrite IH. split.
      - intros [Hle Hl]. split; [lia|].
        replace (i - k) with (S (i - S k)) by lia. done.
      - intros [Hlt Hl]. split; [lia|].
        replace (i - k) with (S (i - S k)) in Hl by lia. done. }
    destruct (decide (n = field)) as [->|Hne].
    + rewrite elem_of_cons, Hrest. split.
      * intros [->|[Hlt Hl]]; [|split; [lia|done]].
        split; [lia|]. by rewrite Nat.sub_diag.
      * intros [Hle Hl]. destruct (decide (i = k)) as [->|]; [by left|].
        right. split; [lia|done].
    + rewrite Hrest. split.
      * intros [Hlt Hl]. split; [lia|done].
      * intros [Hle Hl]. split; [|done].
        destruct (decide (i = k)) as [->|]; [|lia].
        rewrite Nat.sub_diag in Hl. simpl in Hl. congruence.
Qed.

Lemma StronglySorted_lt_NoDup (l : list nat) : StronglySorted lt l → NoDup l.
Proof.
  induction 1 as [|x l _ IH Hall]; constructor; [|done].
  intros Hin. rewrite Forall_forall in Hall. specialize (Hall x Hin). lia.
Qed.

(** X6: the index of a compiled matcher holds position [i] for a field
    exactly when the field is one of the struct and group [i] of the
    compiled pattern carries its name.  So a position is listed for one field
    at most and once, a group without a name (the whole match among them) is
    listed for no field, and no field is mapped to an empty list. *)
Theorem Compile_index_sound_and_complete patternTemplate t fields r :
  cell_has_type t fields →
  Compile patternTemplate (VStruct t fields) = Ok r →
  (∀ field i,
     i ∈ default [] (submatchIndicesByFieldName r !! field) ↔
     field ∈ Name <$> type_fields t ∧
     SubexpNames (pattern r) !! i = Some field) ∧
  (∀ field i,
     i ∈ default [] (submatchIndicesByFieldName r !! field) → field ≠ "") ∧
  (∀ field1 field2 i,
     i ∈ default [] (submatchIndicesByFieldName r !! field1) →
     i ∈ default [] (submatchIndicesByFieldName r !! field2) →
     field1 = field2) ∧
  (∀ field, NoDup (default [] (submatchIndicesByFieldName r !! field))) ∧
  (∀ field, submatchIndicesByFieldName r !! field ≠ Some []).
Proof.
  intros Hty Hc.
  pose proof (Compile_matcher_for _ _ _ _ Hty Hc) as [_ Hfs].
  pose proof (λ field, Compile_indices_ascending _ _ _ field Hc) as Hasc.
  apply Compile_Ok in Hc
    as (t' & fields' & dest & names & comp & [= <- <-] & Hw & _ & _ & _ & Hidx).
  apply wrapFields_Ok in Hw as (_ & -> & _);
    [|symmetry; by eapply Forall2_length].
  assert (∀ field i,
     i ∈ default [] (submatchIndicesByFieldName r !! field) ↔
     field ∈ Name <$> type_fields t ∧
     SubexpNames (pattern r) !! i = Some field) as Hiff.
  { intros field i. rewrite Hidx, indexSubmatches_empty_lookup.
    destruct (decide (field ∈ Name <$> type_fields t)) as [Hin|Hnin].
    - rewrite elem_of_positionsOf, Nat.sub_0_r. split.
      + by intros [_ ?].
      + intros [_ ?]. split; [lia|done].
    - rewrite elem_of_nil. split; [done|by intros [? _]]. }
  split; [exact Hiff|]. split; [|split; [|split]].
  - intros field i Hi ->. apply Hiff in Hi as [Hin _].
    apply list_elem_of_fmap in Hin as (f & Hname & Hf).
    rewrite Forall_forall in Hfs. destruct (Hfs f Hf) as [Hexp _].
    by rewrite <- Hname in Hexp.
  - intros f1 f2 i H1 H2. apply Hiff in H1 as [_ H1]. apply Hiff in H2 as [_ H2].
    congruence.
  - intros field. apply StronglySorted_lt_NoDup, Hasc.
  - intros field. rewrite Hidx, indexSubmatches_lookup, lookup_empty.
    destruct (decide (field ∈ Name <$> type_fields t)); [|done].
    by destruct (positionsOf field 0 (SubexpNames (pattern r))).
Qed.

(** X7: for a compiled matcher, the submatches of a match have a value at
    every index of every field: when [Find] and [FindAll] call the resolver,
    its check of the bounds never stops the walk. *)
Theorem resolver_bounds_check_never_fires patternTemplate cg r s field :
  Compile patternTemplate cg = Ok r →
  FindStringSubmatch (pattern r) s ≠ [] →
  Forall (λ i, is_Some (FindStringSubmatch (pattern r) s !! i))
         (default [] (submatchIndicesByFieldName r !! field)).
Proof.
  intros Hc Hsub.
  destruct (FindStringSubmatch_length (pattern r) s) as [Hnil | Hlen]; [done|].
  eapply Forall_impl; [by eapply (Compile_indices_in_range _ _ _ field)|].
  simpl. intros i Hi. apply lookup_lt_is_Some. by rewrite Hlen.
Qed.

(** ** The resolver *)

Lemma firstNonEmptySubmatch_non_empty idxs submatches v :
  firstNonEmptySubmatch idxs submatches = v →
  v ≠ "" →
  ∃ pre i post,
    idxs = pre ++ i :: post ∧
    Forall (λ j, submatches !! j = Some "") pre ∧
    submatches !! i = Some v.
Proof.
  induction idxs as [|i idxs IH]; simpl; [by intros <-|].
  destruct (decide (length submatches ≤ i)) as [Hge|Hlt]; [by intros <-|].
  destruct (lookup_lt_is_Some_2 submatches i) as [x Hx]; [lia|].
  rewrite Hx. simpl. destruct (decide (x ≠ "")) as [Hne|He].
  - intros <- _. by exists [], i, idxs.
  - intros Hv Hnz. destruct (IH Hv Hnz) as (pre & j & post & -> & Hpre & Hj).
    exists (i :: pre), j, post. repeat split; [|done].
    constructor; [|done]. rewrite Hx. f_equal.
    destruct (decide (x = "")); [done|]. by destruct He.
Qed.

(** X8: the resolver returns a non-empty value [v] for a field exactly when
    the index list of the field holds an index whose submatch is [v] and all
    indices before it have an empty submatch: the first submatch that is not
    empty wins. *)
Theorem resolver_returns_first_non_empty_submatch
    (r : TypedRegexp) field submatches v :
  v ≠ "" →
  findFirstNonEmptySubmatchForField r field submatches = v ↔
  ∃ pre i post,
    submatchIndicesByFieldName r !! field = Some (pre ++ i :: post) ∧
    Forall (λ j, submatches !! j = Some "") pre ∧
    submatches !! i = Some v.
Proof.
  intros Hv. unfold findFirstNonEmptySubmatchForField. split.
  - intros Hres.
    destruct (firstNonEmptySubmatch_non_empty _ _ _ Hres Hv)
      as (pre & i & post & Heq & Hpre & Hi).
    exists pre, i, post. split; [|done].
    destruct (submatchIndicesByFieldName r !! field) as [l|]; simpl in Heq.
    + by rewrite Heq.
    + by destruct pre.
  - intros (pre & i & post & -> & Hpre & Hi). simpl.
    by apply firstNonEmptySubmatch_skips_empty.
Qed.

Lemma firstNonEmptySubmatch_empty_or_elem idxs submatches :
  firstNonEmptySubmatch idxs submatches = "" ∨
  firstNonEmptySubmatch idxs submatches ∈ submatches.
Proof.
  destruct (decide (firstNonEmptySubmatch idxs submatches = "")) as [|Hne];
    [by left|right].
  destruct (firstNonEmptySubmatch_non_empty _ _ _ eq_refl Hne)
    as (pre & i & post & _ & _ & Hi).
  by eapply list_elem_of_lookup_2.
Qed.

(** X9: the resolver returns the empty string for a field that has no entry
    in the index, for a match without submatches, and when every index of
    the field is out of bounds or has an empty submatch; what it returns is
    always the empty string or one of the submatches. *)
Theorem resolver_returns_empty_string (r : TypedRegexp) field submatches :
  (submatchIndicesByFieldName r !! field = None →
   findFirstNonEmptySubmatchForField r field submatches = "") ∧
  findFirstNonEmptySubmatchForField r field [] = "" ∧
  (Forall (λ j, submatches !! j = Some "" ∨ submatches !! j = None)
          (default [] (submatchIndicesByFieldName r !! field)) →
   findFirstNonEmptySubmatchForField r field submatches = "") ∧
  (findFirstNonEmptySubmatchForField r field submatches = "" ∨
   findFirstNonEmptySubmatchForField r field submatches ∈ submatches).
Proof.
  unfold findFirstNonEmptySubmatchForField. split; [|split; [|split]].
  - by intros ->.
  - apply firstNonEmptySubmatch_all_empty, Forall_forall. intros j _. by right.
  - apply firstNonEmptySubmatch_all_empty.
  - apply firstNonEmptySubmatch_empty_or_elem.
Qed.

(** ** What [Find] and [FindAll] write *)

Lemma assignField_frame r submatches p i (h : Heap) :
  dom (assignField r submatches p i h).2 = dom h ∧
  ∀ q, q ≠ p → (assignField r submatches p i h).2 !! q = h !! q.
Proof.
  unfold assignField.
  destruct (type_Field _ i) as [f|]; [|done].
  destruct (h !! p) as [cell|] eqn:Hp; [|done].
  destruct (cell !! i) as [old|]; [|done].
  destruct (negb (exported (Name f))); [done|].
  destruct old; [|done]. simpl. split.
  - apply dom_insert_lookup_L. by rewrite Hp.
  - intros q Hq. by rewrite lookup_insert_ne.
Qed.

Lemma forFields_frame r submatches p indices (h : Heap) :
  dom (forFields (assignField r submatches p) indices h).2 = dom h ∧
  ∀ q, q ≠ p →
    (forFields (assignField r submatches p) indices h).2 !! q = h !! q.
Proof.
  revert h. induction indices as [|i rest IH]; intros h; [done|].
  cbn [forFields]. unfold bind.
  destruct (assignField_frame r submatches p i h) as [Hd Hq].
  destruct (assignField r submatches p i h) as [[u|msg] h1]; simpl in *; [|done].
  destruct (IH h1) as [Hd1 Hq1]. split; [congruence|].
  intros q Hne. by rewrite Hq1, Hq.
Qed.

Lemma assignSubmatchesToStruct_frame r submatches v (h : Heap) :
  dom (assignSubmatchesToStruct r submatches v h).2 = dom h ∧
  ∀ q, slot_target v ≠ Some q →
    (assignSubmatchesToStruct r submatches v h).2 !! q = h !! q.
Proof.
  assert (∀ p, dom (match h !! p with
                    | Some cell =>
                        forFields (assignField r submatches p) (seq 0 (length cell)) h
                    | None =>
                        (Panicked "invalid memory address or nil pointer dereference", h)
                    end).2 = dom h ∧
               ∀ q, Some p ≠ Some q →
                 (match h !! p with
                  | Some cell =>
                      forFields (assignField r submatches p) (seq 0 (length cell)) h
                  | None =>
                      (Panicked "invalid memory address or nil pointer dereference", h)
                  end).2 !! q = h !! q) as Hat.
  { intros p. destruct (h !! p) as [cell|]; [|done].
    destruct (forFields_frame r submatches p (seq 0 (length cell)) h) as [Hd Hq].
    split; [done|]. intros q Hne. apply Hq. congruence. }
  destruct v as [p|[p|]|]; simpl; try done; apply Hat.
Qed.

(** X10: whatever the matcher, the output and the outcome, [Find] creates and
    removes no struct variable and writes to none but the one its argument
    points to; an argument that is no pointer, or a nil pointer, leaves the
    whole heap as it was. *)
Theorem Find_writes_only_the_pointed_struct
    (r : TypedRegexp) s values (h : Heap) :
  dom (Find r s values h).2 = dom h ∧
  ∀ q, (∀ elem, values ≠ VPtr elem (Some q)) →
    (Find r s values h).2 !! q = h !! q.
Proof.
  unfold Find.
  destruct (decide (reflect_TypeOf values ≠ _)); [done|].
  destruct (decide (length _ = 0)); [done|].
  unfold bind.
  destruct (assignSubmatchesToStruct_frame r (FindStringSubmatch (pattern r) s)
              (ptr_Elem values) h) as [Hd Hq].
  destruct (assignSubmatchesToStruct _ _ _ h) as [[u|msg] h1]; simpl in *.
  - split; [done|]. intros q Hne. apply Hq.
    destruct values; simpl; try done. intros ->. by eapply Hne.
  - split; [done|]. intros q Hne. apply Hq.
    destruct values; simpl; try done. intros ->. by eapply Hne.
Qed.

Lemma rangeSubmatches_frame r slice allSubmatches k (h : Heap) :
  dom (rangeSubmatches r slice k allSubmatches h).2 = dom h ∧
  ∀ q, q ∉ omap slot_target slice →
    (rangeSubmatches r slice k allSubmatches h).2 !! q = h !! q.
Proof.
  revert k h. induction allSubmatches as [|sub rest IH]; intros k h; [done|].
  cbn [rangeSubmatches]. unfold bind.
  assert (dom (match slice !! k with
               | Some (EPtr None) => ret ()
               | Some v => assignSubmatchesToStruct r sub v
               | None => panic "reflect: slice index out of range"
               end h).2 = dom h ∧
          ∀ q, q ∉ omap slot_target slice →
            (match slice !! k with
             | Some (EPtr None) => ret ()
             | Some v => assignSubmatchesToStruct r sub v
             | None => panic "reflect: slice index out of range"
             end h).2 !! q = h !! q) as [Hd Hq].
  { destruct (slice !! k) as [e|] eqn:He; [|done].
    assert (∀ q, q ∉ omap slot_target slice → slot_target e ≠ Some q) as Hne.
    { intros q Hnin Ht. apply Hnin, list_elem_of_omap. exists e.
      split; [by eapply list_elem_of_lookup_2|done]. }
    destruct (assignSubmatchesToStruct_frame r sub e h) as [Hd Hq].
    destruct e as [p|[p|]|]; try done; (split; [done|]; intros q Hq'; by apply Hq, Hne). }
  destruct (match slice !! k with
            | Some (EPtr None) => ret ()
            | Some v => assignSubmatchesToStruct r sub v
            | None => panic "reflect: slice index out of range"
            end h) as [[u|msg] h1]; simpl in *; [|done].
  destruct (IH (S k) h1) as [Hd1 Hq1]. split; [congruence|].
  intros q Hnin. by rewrite Hq1, Hq.
Qed.

(** X11: whatever the matcher, the output and the outcome, [FindAll] creates
    and removes no struct variable and writes to none but those that are
    slots of the slice or that its pointers point to. *)
Theorem FindAll_writes_only_slot_targets
    (r : TypedRegexp) s valuesSlice (h : Heap) :
  dom (FindAll r s valuesSlice h).2 = dom h ∧
  ∀ q, q ∉ omap slot_target (slice_elems valuesSlice) →
    (FindAll r s valuesSlice h).2 !! q = h !! q.
Proof.
  unfold FindAll.
  destruct (decide (_ ∧ _)); [done|].
  destruct (decide (length _ = 0)); [done|].
  unfold bind.
  destruct (rangeSubmatches_frame r (slice_elems valuesSlice)
              (FindAllStringSubmatch (pattern r) s
                 (Z.of_nat (length (slice_elems valuesSlice)))) 0 h) as [Hd Hq].
  by destruct (rangeSubmatches _ _ _ _ h) as [[u|msg] h1].
Qed.

Lemma resolvedFields_has_type t r submatches :
  matcher_for t r → cell_has_type t (resolvedFields r submatches).
Proof.
  intros [HT Hfs]. unfold cell_has_type, resolvedFields. rewrite HT. simpl.
  apply Forall2_fmap_r, Forall_Forall2_diag.
  eapply Forall_impl; [exact Hfs|]. intros f [_ Hs]. simpl. by rewrite Hs.
Qed.

(** X12: on a match [Find] writes every field, so the struct it leaves
    behind depends on the matcher and the input only, not on what the
    struct held before the call. *)
Theorem Find_result_ignores_previous_fields
    patternTemplate t fields r s p cell1 cell2 (h1 h2 : Heap) :
  cell_has_type t fields →
  Compile patternTemplate (VStruct t fields) = Ok r →
  h1 !! p = Some cell1 → cell_has_type t cell1 →
  h2 !! p = Some cell2 → cell_has_type t cell2 →
  FindStringSubmatch (pattern r) s ≠ [] →
  (Find r s (VPtr (TStruct t) (Some p)) h1).2 !! p
    = (Find r s (VPtr (TStruct t) (Some p)) h2).2 !! p ∧
  (Find r s (VPtr (TStruct t) (Some p)) h1).2 !! p
    = Some ((λ f, FString (findFirstNonEmptySubmatchForField r (Name f)
                             (FindStringSubmatch (pattern r) s)))
              <$> type_fields t).
Proof.
  intros Hcg Hc Hp1 Hty1 Hp2 Hty2 Hsub.
  pose proof (Compile_matcher_for _ _ _ _ Hcg Hc) as Hm.
  rewrite (Find_spec t r s p cell1 h1 Hm Hp1 Hty1).
  rewrite (Find_spec t r s p cell2 h2 Hm Hp2 Hty2).
  destruct (FindStringSubmatch (pattern r) s) as [|m ms]; [done|]. simpl.
  rewrite !lookup_insert_eq. split; [done|].
  unfold resolvedFields. by destruct Hm as [-> _].
Qed.

(** X13: a second [Find] with the same input on the same struct returns
    what the first one returned and changes nothing any more. *)
Theorem Find_twice patternTemplate t fields r s p cell (h : Heap) :
  cell_has_type t fields →
  Compile patternTemplate (VStruct t fields) = Ok r →
  h !! p = Some cell →
  cell_has_type t cell →
  Find r s (VPtr (TStruct t) (Some p))
       (Find r s (VPtr (TStruct t) (Some p)) h).2
    = Find r s (VPtr (TStruct t) (Some p)) h.
Proof.
  intros Hcg Hc Hp Hty.
  pose proof (Compile_matcher_for _ _ _ _ Hcg Hc) as Hm.
  rewrite (Find_spec t r s p cell h Hm Hp Hty).
  destruct (FindStringSubmatch (pattern r) s) as [|m ms] eqn:Hsub; simpl.
  - rewrite (Find_spec t r s p cell h Hm Hp Hty). by rewrite Hsub.
  - rewrite (Find_spec t r s p (resolvedFields r (m :: ms))
               (<[p := resolvedFields r (m :: ms)]> h) Hm).
    + rewrite Hsub. by rewrite insert_insert_eq.
    + by rewrite lookup_insert_eq.
    + by apply resolvedFields_has_type.
Qed.

(** X14: [Find] on a nil pointer of the right type returns false when the
    pattern does not match, and panics in [assignSubmatchesToStruct] when it
    does; in both cases the heap is as before. *)
Theorem Find_on_nil_pointer patternTemplate t fields r s (h : Heap) :
  Compile patternTemplate (VStruct t fields) = Ok r →
  (FindStringSubmatch (pattern r) s = [] →
   Find r s (VPtr (TStruct t) None) h = (Returned false, h)) ∧
  (FindStringSubmatch (pattern r) s ≠ [] →
   Find r s (VPtr (TStruct t) None) h
     = (Panicked "reflect: call of reflect.Value.NumField on zero Value", h)).
Proof.
  intros Hc.
  apply Compile_Ok in Hc
    as (t' & fields' & dest & names & comp & [= <- <-] & _ & _ & _ & Hcg & _).
  unfold Find. rewrite Hcg. cbn [reflect_TypeOf]. unfold PtrTo.
  destruct (decide (TPtr (TStruct t) ≠ TPtr (TStruct t))); [done|].
  destruct (FindStringSubmatch (pattern r) s) as [|m ms]; split; done.
Qed.

(** X15: when the engine's bounded search for one match agrees with its
    single search, [FindAll] on a slice of one slot, the struct itself or a
    pointer to it, leaves the struct as [Find] on a pointer to it does, and
    returns 1 where [Find] returns true and 0 where it returns false. *)
Theorem FindAll_of_one_slot_is_Find
    patternTemplate t fields r s p cell (h : Heap) :
  cell_has_type t fields →
  Compile patternTemplate (VStruct t fields) = Ok r →
  h !! p = Some cell →
  cell_has_type t cell →
  FindAllStringSubmatch (pattern r) s 1
    = match FindStringSubmatch (pattern r) s with
      | [] => []
      | submatches => [submatches]
      end →
  ∃ (found : bool) (h' : Heap),
    Find r s (VPtr (TStruct t) (Some p)) h = (Returned found, h') ∧
    FindAll r s (VSlice (TPtr (TStruct t)) [EPtr (Some p)]) h
      = (Returned (if found then 1 else 0), h') ∧
    FindAll r s (VSlice (TStruct t) [EStruct p]) h
      = (Returned (if found then 1 else 0), h').
Proof.
  intros Hcg Hc Hp Hty Hone.
  pose proof (Compile_matcher_for _ _ _ _ Hcg Hc) as Hm.
  assert (∀ e, slot_target e = Some p → e ≠ EOther → slots_ready r h [e]) as Hready.
  { intros e He Hne. constructor; [|constructor]. split; [done|].
    intros q Hq. assert (q = p) as -> by congruence.
    exists cell. split; [done|]. by eapply matcher_for_cell_ready. }
  destruct (FindAll_spec t r s (TPtr (TStruct t)) [EPtr (Some p)] h Hm
              (or_intror eq_refl) (Hready (EPtr (Some p)) eq_refl ltac:(done)))
    as [_ HP].
  destruct (FindAll_spec t r s (TStruct t) [EStruct p] h Hm
              (or_introl eq_refl) (Hready (EStruct p) eq_refl ltac:(done)))
    as [_ HS].
  change (Z.of_nat (length [EPtr (Some p)])) with 1%Z in HP.
  change (Z.of_nat (length [EStruct p])) with 1%Z in HS.
  rewrite HP, HS, Hone.
  rewrite (Find_spec t r s p cell h Hm Hp Hty).
  destruct (FindStringSubmatch (pattern r) s) as [|m ms].
  - by exists false, h.
  - by exists true, (<[p := resolvedFields r (m :: ms)]> h).
Qed.

(** X16: [FindAll] on a slice of structs, or of pointers, whose slots are
    different struct variables returns the number of matches obtained, which
    is at most the number of slots; slot [j] below that number holds match
    [j], and the slots from that number on are as they were. *)
Theorem FindAll_fills_prefix_and_keeps_rest
    patternTemplate t fields r s elem slice (h : Heap) :
  cell_has_type t fields →
  Compile patternTemplate (VStruct t fields) = Ok r →
  elem = TStruct t ∨ elem = TPtr (TStruct t) →
  slots_ready r h slice →
  slots_distinct slice →
  ∃ h',
    FindAll r s (VSlice elem slice) h
      = (Returned (length (FindAllStringSubmatch (pattern r) s
                             (Z.of_nat (length slice)))), h') ∧
    length (FindAllStringSubmatch (pattern r) s (Z.of_nat (length slice)))
      ≤ length slice ∧
    (∀ j e p submatches,
       slice !! j = Some e → slot_target e = Some p →
       FindAllStringSubmatch (pattern r) s (Z.of_nat (length slice)) !! j
         = Some submatches →
       h' !! p = Some (resolvedFields r submatches)) ∧
    (∀ j e p,
       slice !! j = Some e → slot_target e = Some p →
       length (FindAllStringSubmatch (pattern r) s (Z.of_nat (length slice))) ≤ j →
       h' !! p = h !! p).
Proof.
  intros Hcg Hc Helem Hs Hd.
  pose proof (Compile_matcher_for _ _ _ _ Hcg Hc) as Hm.
  destruct (FindAll_spec t r s elem slice h Hm Helem Hs) as [Hle ->].
  eexists. split; [done|]. split; [done|]. split.
  - intros j e p sub He Hp Hsub.
    apply (writeSubmatches_lookup_slot r slice _ 0 h j e p sub Hd He Hp); [lia|].
    by rewrite Nat.sub_0_r.
  - intros j e p He Hp Hj. apply writeSubmatches_lookup_other.
    intros j' e' Hj' He' Hp'.
    assert (j' = j) by (eapply slots_distinct_inj; eauto). lia.
Qed.

Lemma writeSubmatches_has_type t r slice allSubmatches k (h : Heap) :
  matcher_for t r →
  (∀ q c, h !! q = Some c → cell_has_type t c) →
  ∀ q c, writeSubmatches r slice k allSubmatches h !! q = Some c →
         cell_has_type t c.
Proof.
  intros Hm. revert k h.
  induction allSubmatches as [|sub rest IH]; intros k h Hh; [exact Hh|].
  cbn [writeSubmatches]. apply IH.
  destruct (slice !! k ≫= slot_target) as [p|]; [|exact Hh].
  intros q c. destruct (decide (p = q)) as [->|Hne].
  - rewrite lookup_insert_eq. intros [= <-]. by apply resolvedFields_has_type.
  - rewrite lookup_insert_ne by done. apply Hh.
Qed.

(** X17: [Find] and [FindAll] keep the heap well typed: when every struct
    variable of the heap holds a value of the struct type of the matcher
    before the call, every one does after it. *)
Theorem Find_and_FindAll_keep_structs_well_typed
    patternTemplate t fields r s p cell elem slice (h : Heap) :
  cell_has_type t fields →
  Compile patternTemplate (VStruct t fields) = Ok r →
  (∀ q c, h !! q = Some c → cell_has_type t c) →
  h !! p = Some cell →
  elem = TStruct t ∨ elem = TPtr (TStruct t) →
  Forall (λ e, e ≠ EOther ∧ ∀ q, slot_target e = Some q → is_Some (h !! q)) slice →
  (∀ q c, (Find r s (VPtr (TStruct t) (Some p)) h).2 !! q = Some c →
          cell_has_type t c) ∧
  (∀ q c, (FindAll r s (VSlice elem slice) h).2 !! q = Some c →
          cell_has_type t c).
Proof.
  intros Hcg Hc Hh Hp Helem Hslots.
  pose proof (Compile_matcher_for _ _ _ _ Hcg Hc) as Hm. split.
  - rewrite (Find_spec t r s p cell h Hm Hp (Hh _ _ Hp)).
    destruct (FindStringSubmatch (pattern r) s) as [|m ms]; [exact Hh|]. simpl.
    intros q c. destruct (decide (p = q)) as [->|Hne].
    + rewrite lookup_insert_eq. intros [= <-]. by apply resolvedFields_has_type.
    + rewrite lookup_insert_ne by done. apply Hh.
  - assert (slots_ready r h slice) as Hs.
    { eapply Forall_impl; [exact Hslots|]. intros e [Hne Ht]. split; [done|].
      intros q Hq. destruct (Ht q Hq) as [c Hc']. exists c. split; [done|].
      eapply matcher_for_cell_ready; eauto. }
    destruct (FindAll_spec t r s elem slice h Hm Helem Hs) as [_ ->]. simpl.
    by apply writeSubmatches_has_type.
Qed.

End coverage.

(** * The properties on the tests and examples of the package

    From here on the collaborators are the reference engines. *)

#[local] Existing Instances RE2.regexp_engine Tmpl.template_engine.

Import Fixtures.

Ltac by_computation := vm_compute; reflexivity.

Lemma from_result_Ok {A} (zero : A) (res : result A) :
  is_Ok res = true → res = Ok (from_result zero res).
Proof. by destruct res. Qed.

Lemma compiled_Ok patternTemplate cg :
  is_Ok (Compile patternTemplate cg) = true →
  Compile patternTemplate cg = Ok (compiled patternTemplate cg).
Proof. apply from_result_Ok. Qed.

Lemma field_accepted_intro (f : StructField) (sub : string) :
  exported (Name f) = true →
  sub ≠ "" →
  is_Ok (regexp_Compile sub) = true →
  field_accepted f (FString sub).
Proof.
  intros Hexp Hne Hok. destruct (regexp_Compile sub) as [re|e] eqn:Hre; [|done].
  by exists sub, re.
Qed.

(** The two string fields of the fixtures hold a struct of their type. *)
Lemma two_strings_have_type (t : StructType) a b :
  Type_ <$> type_fields t = [FTString; FTString] →
  cell_has_type t [FString a; FString b].
Proof.
  unfold cell_has_type. destruct (type_fields t) as [|f [|g [|? ?]]]; try done.
  intros [= Hf Hg]. repeat constructor; simpl; by rewrite ?Hf, ?Hg.
Qed.

(** [TestFind_SecondAlternative]: the input matches the second branch only,
    and [Name] comes from group 2. *)
Lemma Find_resolves_field_from_participating_branch_witness :
  Compile "a {{.Name}}|b {{.Name}}"
    (VStruct CaptureGroups [FString "\w+"; FString "\d+"]) = Ok alternatives ∧
  submatchIndicesByFieldName alternatives !! "Name" = Some [1; 2] ∧
  FindStringSubmatch (pattern alternatives) "b foo" = ["b foo"; ""; "foo"] ∧
  ∃ h' cell',
    Find alternatives "b foo" (VPtr (TStruct CaptureGroups) (Some 0))
         (oneStruct [FString ""; FString ""]) = (Returned true, h') ∧
    h' !! 0 = Some cell' ∧
    cell' !! 0 = Some (FString "foo").
Proof.
  split; [apply compiled_Ok; by_computation|].
  split; [by_computation|]. split; [by_computation|].
  edestruct (Find_resolves_field_from_participating_branch
               "a {{.Name}}|b {{.Name}}" CaptureGroups
               [FString "\w+"; FString "\d+"] alternatives "b foo" 0
               [FString ""; FString ""] (oneStruct [FString ""; FString ""])
               0 (stringField "Name") [1] 2 [] "foo")
    as (_ & _ & Hfind).
  - by apply two_strings_have_type.
  - apply compiled_Ok; by_computation.
  - by_computation.
  - by apply two_strings_have_type.
  - reflexivity.
  - by_computation.
  - constructor; [by_computation|constructor].
  - by_computation.
  - discriminate.
  - exact Hfind.
Defined.

(** C1 (the code departs from it): on the scenario with an optional group,
    the input ["foo"] matches and no group of [Age] holds a value, yet after
    [Find], and after [FindAll], the field [Age] that the caller had set to
    ["-1"] is the empty string: [assignSubmatchesToStruct] sets every field
    to what the resolver returns, and the resolver returns the empty string
    for a field without a value. *)
Theorem Find_overwrites_field_without_submatch :
  Compile "{{.Name}}( {{.Age}})?"
    (VStruct Values [FString "\w+"; FString "\d+"]) = Ok optionalAge ∧
  FindStringSubmatch (pattern optionalAge) "foo" = ["foo"; "foo"; ""; ""] ∧
  submatchIndicesByFieldName optionalAge !! "Age" = Some [3] ∧
  (Find optionalAge "foo" (VPtr (TStruct Values) (Some 0))
        (oneStruct [FString "Jane Doe"; FString "-1"])).1 = Returned true ∧
  (Find optionalAge "foo" (VPtr (TStruct Values) (Some 0))
        (oneStruct [FString "Jane Doe"; FString "-1"])).2 !! 0
    = Some [FString "foo"; FString ""] ∧
  (FindAll optionalAge "foo" (VSlice (TStruct Values) [EStruct 0])
        (oneStruct [FString "Jane Doe"; FString "-1"])).1 = Returned 1 ∧
  (FindAll optionalAge "foo" (VSlice (TStruct Values) [EStruct 0])
        (oneStruct [FString "Jane Doe"; FString "-1"])).2 !! 0
    = Some [FString "foo"; FString ""].
Proof.
  split; [apply compiled_Ok; by_computation|].
  repeat split; by_computation.
Qed.

(** [ExampleTypedRegexp_Find_defaultValues] and a match without any field
    value: no match gives false and an unchanged struct, a match gives
    true. *)
Lemma Find_found_iff_pattern_matches_witness :
  FindStringSubmatch (pattern greeting) "I'll ask the questions." = [] ∧
  Find greeting "I'll ask the questions." (VPtr (TStruct Values) (Some 0))
       (oneStruct [FString "Jane Doe"; FString "-1"])
    = (Returned false, oneStruct [FString "Jane Doe"; FString "-1"]) ∧
  FindStringSubmatch (pattern literalBranch) "x" = ["x"; ""; ""] ∧
  Find literalBranch "x" (VPtr (TStruct Values) (Some 0))
       (oneStruct [FString ""; FString ""])
    = (Returned true,
       <[0 := resolvedFields literalBranch ["x"; ""; ""]]>
         (oneStruct [FString ""; FString ""])).
Proof.
  assert (FindStringSubmatch (pattern greeting) "I'll ask the questions." = [])
    as Hnone by by_computation.
  assert (FindStringSubmatch (pattern literalBranch) "x" = ["x"; ""; ""])
    as Hsome by by_computation.
  split; [exact Hnone|]. split; [|split; [exact Hsome|]].
  - apply (Find_found_iff_pattern_matches
             "Hi, I'm {{.Name}}. I'm {{.Age}} years old!|I'm {{.Name}}, I'm {{.Age}}."
             Values [FString "\w+"; FString "\d+"] greeting
             "I'll ask the questions." 0 [FString "Jane Doe"; FString "-1"]).
    + by apply two_strings_have_type.
    + apply compiled_Ok; by_computation.
    + by_computation.
    + by apply two_strings_have_type.
    + exact Hnone.
  - edestruct (Find_found_iff_pattern_matches
                 "x|{{.Name}} {{.Age}}"
                 Values [FString "\w+"; FString "\d+"] literalBranch
                 "x" 0 [FString ""; FString ""]
                 (oneStruct [FString ""; FString ""])) as [_ Hyes].
    + by apply two_strings_have_type.
    + apply compiled_Ok; by_computation.
    + by_computation.
    + by apply two_strings_have_type.
    + rewrite Hsome in Hyes. apply Hyes. discriminate.
Defined.

(** A struct variable of the fixtures is ready for a matcher over two string
    fields. *)
Lemma two_strings_ready (r : TypedRegexp) a b :
  length (struct_fields (reflect_TypeOf (captureGroups r))) = 2 →
  cell_ready r [FString a; FString b].
Proof. intros Hl. split; [by rewrite Hl|]. by repeat constructor. Qed.

(** [TestFindAll], "find some": two slots, three matches in the input. *)
Lemma FindAll_bounded_by_slice_length_witness :
  length (FindAllStringSubmatch (pattern alternatives)
            "a foo b bar a baz extra" (-1)) = 3 ∧
  ∃ n h',
    FindAll alternatives "a foo b bar a baz extra"
      (VSlice (TStruct CaptureGroups) [EStruct 0; EStruct 1])
      (twoStructs [FString ""; FString ""] [FString ""; FString ""])
      = (Returned n, h') ∧
    n ≤ 2 ∧
    n = 2 `min` length (FindAllStringSubmatch (pattern alternatives)
                          "a foo b bar a baz extra" (-1)) ∧
    (2 < length (FindAllStringSubmatch (pattern alternatives)
                   "a foo b bar a baz extra" (-1)) →
     n = 2 ∧
     ∀ j e p, [EStruct 0; EStruct 1] !! j = Some e → slot_target e = Some p →
       ∃ submatches,
         FindAllStringSubmatch (pattern alternatives)
           "a foo b bar a baz extra" (-1) !! j = Some submatches ∧
         h' !! p = Some (resolvedFields alternatives submatches)).
Proof.
  split; [by_computation|].
  apply (FindAll_bounded_by_slice_length
           "a {{.Name}}|b {{.Name}}" CaptureGroups
           [FString "\w+"; FString "\d+"] alternatives
           "a foo b bar a baz extra" (TStruct CaptureGroups)
           [EStruct 0; EStruct 1]
           (twoStructs [FString ""; FString ""] [FString ""; FString ""])).
  - by apply two_strings_have_type.
  - apply compiled_Ok; by_computation.
  - by left.
  - repeat constructor; try discriminate.
    + intros p [= <-]. exists [FString ""; FString ""].
      split; [by_computation|]. apply two_strings_ready. by_computation.
    + intros p [= <-]. exists [FString ""; FString ""].
      split; [by_computation|]. apply two_strings_ready. by_computation.
  - unfold slots_distinct. simpl. apply (bool_decide_unpack _). by_computation.
Defined.

(** [TestFindAll_SliceOfPtrs]: the first slot is nil, the second one gets
    the second match. *)
Lemma FindAll_skips_nil_slots_witness :
  FindAllStringSubmatch (pattern alternatives) "a foo b bar a baz extra" 2
    = [["a foo"; "foo"; ""]; ["b bar"; ""; "bar"]] ∧
  resolvedFields alternatives ["b bar"; ""; "bar"] = [FString "bar"; FString ""] ∧
  ∃ h',
    FindAll alternatives "a foo b bar a baz extra"
      (VSlice (TPtr (TStruct CaptureGroups)) [EPtr None; EPtr (Some 1)])
      (twoStructs [FString "zero"; FString ""] [FString ""; FString ""])
      = (Returned 2, h') ∧
    h' !! 1 = Some [FString "bar"; FString ""] ∧
    h' !! 0 = Some [FString "zero"; FString ""].
Proof.
  assert (FindAllStringSubmatch (pattern alternatives) "a foo b bar a baz extra" 2
          = [["a foo"; "foo"; ""]; ["b bar"; ""; "bar"]]) as Hall by by_computation.
  assert (resolvedFields alternatives ["b bar"; ""; "bar"]
          = [FString "bar"; FString ""]) as Hres by by_computation.
  split; [exact Hall|]. split; [exact Hres|].
  destruct (FindAll_skips_nil_slots
              "a {{.Name}}|b {{.Name}}" CaptureGroups
              [FString "\w+"; FString "\d+"] alternatives
              "a foo b bar a baz extra" [EPtr None; EPtr (Some 1)]
              (twoStructs [FString "zero"; FString ""] [FString ""; FString ""]))
    as (h' & Hret & Hslot & Hframe).
  - by apply two_strings_have_type.
  - apply compiled_Ok; by_computation.
  - repeat constructor; try discriminate.
    intros p [= <-]. exists [FString ""; FString ""].
    split; [by_computation|]. apply two_strings_ready. by_computation.
  - unfold slots_distinct. simpl. apply (bool_decide_unpack _). by_computation.
  - change (Z.of_nat (length [EPtr None; EPtr (Some 1)])) with 2%Z in *.
    rewrite Hall in *. exists h'. split; [exact Hret|]. split.
    + rewrite <- Hres. by apply (Hslot 1 1 ["b bar"; ""; "bar"]).
    + transitivity
        (twoStructs [FString "zero"; FString ""] [FString ""; FString ""] !! 0);
        [|by_computation].
      apply (Hframe 0).
      intros [|[|j]] e Hj He; simpl in *; try lia.
      * injection He as <-. discriminate.
      * injection He as <-. discriminate.
Defined.

(** A submatch sequence shorter than the indices of the field: index 2 of
    [Name] is out of bounds, and [Name] resolves as with index 1 alone. *)
Lemma out_of_bounds_index_counts_as_absent_witness :
  submatchIndicesByFieldName alternatives !! "Name" = Some [1; 2] ∧
  findFirstNonEmptySubmatchForField alternatives "Name" ["a foo"; "foo"]
    = walkSkippingAbsent
        (default [] (submatchIndicesByFieldName alternatives !! "Name"))
        ["a foo"; "foo"] ∧
  findFirstNonEmptySubmatchForField alternatives "Name" ["a foo"; "foo"]
    = firstNonEmptySubmatch
        (filter (λ i, i < length ["a foo"; "foo"])
                (default [] (submatchIndicesByFieldName alternatives !! "Name")))
        ["a foo"; "foo"].
Proof.
  split; [by_computation|].
  apply (out_of_bounds_index_counts_as_absent
           "a {{.Name}}|b {{.Name}}"
           (VStruct CaptureGroups [FString "\w+"; FString "\d+"])).
  apply compiled_Ok; by_computation.
Defined.

(** C7 does not hold as stated.  The schema of [Values] has valid, non-empty
    sub-patterns and unique names, and both templates below mention every
    field.  The first one yields a composite pattern with an unclosed
    parenthesis, and [Compile] returns the error of [regexp.Compile]; the
    second one puts the wrapped fields inside a bracket class, the composite
    pattern compiles without any group, and the index map has no entry for
    the fields. *)
Lemma Compile_fails_or_indexes_nothing :
  Forall2 field_accepted (type_fields Values) [FString "\w+"; FString "\d+"] ∧
  NoDup (Name <$> type_fields Values) ∧
  template_Parse "({{.Name}} {{.Age}}"
    = Ok [Tmpl.Text "("; Tmpl.FieldNode "Name"; Tmpl.Text " "; Tmpl.FieldNode "Age"] ∧
  error_of (Compile "({{.Name}} {{.Age}}"
              (VStruct Values [FString "\w+"; FString "\d+"]))
    = Some "error parsing `((?P<Name>\w+) (?P<Age>\d+)`: error parsing regexp: missing closing ): `((?P<Name>\w+) (?P<Age>\d+)`" ∧
  template_Parse "[{{.Name}}{{.Age}}]"
    = Ok [Tmpl.Text "["; Tmpl.FieldNode "Name"; Tmpl.FieldNode "Age"; Tmpl.Text "]"] ∧
  is_Ok (Compile "[{{.Name}}{{.Age}}]"
           (VStruct Values [FString "\w+"; FString "\d+"])) = true ∧
  SubexpNames (pattern (compiled "[{{.Name}}{{.Age}}]"
                          (VStruct Values [FString "\w+"; FString "\d+"]))) = [""] ∧
  submatchIndicesByFieldName
    (compiled "[{{.Name}}{{.Age}}]"
       (VStruct Values [FString "\w+"; FString "\d+"])) !! "Name" = None ∧
  submatchIndicesByFieldName
    (compiled "[{{.Name}}{{.Age}}]"
       (VStruct Values [FString "\w+"; FString "\d+"])) !! "Age" = None.
Proof.
  split.
  { repeat constructor; apply field_accepted_intro; try by_computation; discriminate. }
  split.
  { apply (bool_decide_unpack _). by_computation. }
  repeat split; by_computation.
Qed.

(** The index of [ExampleTypedRegexp_Find]: both fields occur in both
    branches of the template. *)
Lemma Compile_indexes_group_names_witness :
  SubexpNames (pattern greeting) = [""; "Name"; "Age"; "Name"; "Age"] ∧
  positionsOf "Name" 0 (SubexpNames (pattern greeting)) = [1; 3] ∧
  positionsOf "Age" 0 (SubexpNames (pattern greeting)) = [2; 4] ∧
  ∃ r,
    Compile "Hi, I'm {{.Name}}. I'm {{.Age}} years old!|I'm {{.Name}}, I'm {{.Age}}."
      (VStruct Values [FString "\w+"; FString "\d+"]) = Ok r ∧
    pattern r = pattern greeting ∧
    captureGroups r
      = VStruct Values [FString "(?P<Name>\w+)"; FString "(?P<Age>\d+)"] ∧
    ∀ f, f ∈ type_fields Values →
      (Name f ∈ SubexpNames (pattern greeting) →
       submatchIndicesByFieldName r !! Name f
         = Some (positionsOf (Name f) 0 (SubexpNames (pattern greeting))) ∧
       positionsOf (Name f) 0 (SubexpNames (pattern greeting)) ≠ [] ∧
       StronglySorted lt (positionsOf (Name f) 0 (SubexpNames (pattern greeting)))) ∧
      (Name f ∉ SubexpNames (pattern greeting) →
       submatchIndicesByFieldName r !! Name f = None).
Proof.
  split; [by_computation|]. split; [by_computation|]. split; [by_computation|].
  apply (Compile_indexes_group_names
           "Hi, I'm {{.Name}}. I'm {{.Age}} years old!|I'm {{.Name}}, I'm {{.Age}}."
           Values [FString "\w+"; FString "\d+"]
           [FString "(?P<Name>\w+)"; FString "(?P<Age>\d+)"] ["Name"; "Age"]
           "Hi, I'm (?P<Name>\w+). I'm (?P<Age>\d+) years old!|I'm (?P<Name>\w+), I'm (?P<Age>\d+)."
           (pattern greeting)).
  - repeat constructor; apply field_accepted_intro; try by_computation; discriminate.
  - by_computation.
  - by_computation.
  - by_computation.
Defined.

(** [TestWrapFieldsInCaptureGroups]: empty fields, an invalid pattern, and
    an empty second field behind a valid first one. *)
Lemma Compile_rejects_first_bad_field_witness :
  Compile "{{.Name}}" (VStruct CaptureGroups [FString ""; FString ""])
    = Err "field Name is empty" ∧
  Compile "{{.Name}}" (VStruct CaptureGroups [FString "("; FString ")"])
    = Err "error parsing regex in field Name: error parsing regexp: missing closing ): `(`" ∧
  Compile "{{.Name}}" (VStruct CaptureGroups [FString "\w+"; FString ""])
    = Err "field S0m3th1ng is empty".
Proof.
  split; [|split].
  - edestruct (Compile_rejects_first_bad_field
                 "{{.Name}}" CaptureGroups [FString ""; FString ""]
                 0 (stringField "Name") "") as [Hempty _].
    + constructor.
    + reflexivity.
    + reflexivity.
    + reflexivity.
    + apply Hempty. reflexivity.
  - edestruct (Compile_rejects_first_bad_field
                 "{{.Name}}" CaptureGroups [FString "("; FString ")"]
                 0 (stringField "Name") "(") as [_ Hinvalid].
    + constructor.
    + reflexivity.
    + reflexivity.
    + reflexivity.
    + apply (Hinvalid "error parsing regexp: missing closing ): `(`");
        [discriminate|by_computation].
  - edestruct (Compile_rejects_first_bad_field
                 "{{.Name}}" CaptureGroups [FString "\w+"; FString ""]
                 1 (stringField "S0m3th1ng") "") as [Hempty _].
    + repeat constructor; apply field_accepted_intro; try by_computation; discriminate.
    + reflexivity.
    + reflexivity.
    + reflexivity.
    + apply Hempty. reflexivity.
Defined.

(** [TestFind_WrongType] and [TestFindAll_WrongType]. *)
Lemma shape_mismatch_panics_witness :
  Find singleField "foo" (VPtr (TStruct InvalidFieldType) (Some 0))
       (oneStruct [FInt 0])
    = (Panicked "values must be *typedregexp.CaptureGroups, is *typedregexp.InvalidFieldType",
       oneStruct [FInt 0]) ∧
  Find singleField "foo" (VStruct CaptureGroups [FString ""; FString ""]) ∅
    = (Panicked "values must be *typedregexp.CaptureGroups, is typedregexp.CaptureGroups",
       ∅) ∧
  FindAll singleField "foo" (VSlice (TStruct InvalidFieldType) []) ∅
    = (Panicked "values must be []typedregexp.CaptureGroups or []*typedregexp.CaptureGroups, is []typedregexp.InvalidFieldType",
       ∅) ∧
  FindAll singleField "foo" (VStruct CaptureGroups [FString ""; FString ""]) ∅
    = (Panicked "values must be []typedregexp.CaptureGroups or []*typedregexp.CaptureGroups, is typedregexp.CaptureGroups",
       ∅).
Proof.
  assert (Compile "{{.Name}}" (VStruct CaptureGroups [FString "\w+"; FString "\d+"])
          = Ok singleField) as Hc by (apply compiled_Ok; by_computation).
  split; [|split; [|split]].
  - apply (proj1 (shape_mismatch_panics _ _ _ _ "foo"
                    (VPtr (TStruct InvalidFieldType) (Some 0))
                    (oneStruct [FInt 0]) Hc)).
    discriminate.
  - apply (proj1 (shape_mismatch_panics _ _ _ _ "foo"
                    (VStruct CaptureGroups [FString ""; FString ""]) ∅ Hc)).
    discriminate.
  - apply (proj2 (shape_mismatch_panics _ _ _ _ "foo"
                    (VSlice (TStruct InvalidFieldType) []) ∅ Hc)).
    discriminate.
  - apply (proj2 (shape_mismatch_panics _ _ _ _ "foo"
                    (VStruct CaptureGroups [FString ""; FString ""]) ∅ Hc)).
    discriminate.
Defined.

(** [ValuesDefaults] has the fields of [Values] and is another type: a
    matcher compiled for [Values] refuses it. *)
Lemma type_check_is_by_identity_witness :
  type_fields ValuesDefaults = type_fields Values ∧
  ValuesDefaults ≠ Values ∧
  Find greeting "Hi, I'm Sam. I'm 20 years old!"
       (VPtr (TStruct ValuesDefaults) (Some 0)) (oneStruct [FString ""; FString ""])
    = (Panicked "values must be *typedregexp.Values, is *typedregexp.ValuesDefaults",
       oneStruct [FString ""; FString ""]) ∧
  FindAll greeting "Hi, I'm Sam. I'm 20 years old!"
       (VSlice (TStruct ValuesDefaults) [EStruct 0]) (oneStruct [FString ""; FString ""])
    = (Panicked "values must be []typedregexp.Values or []*typedregexp.Values, is []typedregexp.ValuesDefaults",
       oneStruct [FString ""; FString ""]) ∧
  FindAll greeting "Hi, I'm Sam. I'm 20 years old!"
       (VSlice (TPtr (TStruct ValuesDefaults)) [EPtr (Some 0)])
       (oneStruct [FString ""; FString ""])
    = (Panicked "values must be []typedregexp.Values or []*typedregexp.Values, is []*typedregexp.ValuesDefaults",
       oneStruct [FString ""; FString ""]).
Proof.
  assert (Compile
            "Hi, I'm {{.Name}}. I'm {{.Age}} years old!|I'm {{.Name}}, I'm {{.Age}}."
            (VStruct Values [FString "\w+"; FString "\d+"])
          = Ok greeting) as Hc by (apply compiled_Ok; by_computation).
  split; [reflexivity|]. split; [discriminate|].
  destruct (type_check_is_by_identity _ _ _ _ "Hi, I'm Sam. I'm 20 years old!"
              (oneStruct [FString ""; FString ""]) Hc)
    as (_ & _ & Hdistinct & _).
  split; [|split].
  - apply (Hdistinct ValuesDefaults (Some 0) []); [reflexivity|discriminate].
  - apply (Hdistinct ValuesDefaults None [EStruct 0]); [reflexivity|discriminate].
  - apply (Hdistinct ValuesDefaults None [EPtr (Some 0)]); [reflexivity|discriminate].
Defined.

(** * The further properties on the tests and examples of the package *)

(** A pointer to a struct and a string are no structs. *)
Lemma Compile_rejects_non_struct_witness :
  (Compile "{{.Name}}" (VPtr (TStruct Values) (Some 0))
     = Err "captureGroups must be a struct, is a *typedregexp.Values" ∧
   MustCompile "{{.Name}}" (VPtr (TStruct Values) (Some 0))
     (oneStruct [FString "\w+"; FString "\d+"])
     = (Panicked "captureGroups must be a struct, is a *typedregexp.Values",
        oneStruct [FString "\w+"; FString "\d+"])) ∧
  (Compile "{{.Name}}" (VString "\w+")
     = Err "captureGroups must be a struct, is a string" ∧
   MustCompile "{{.Name}}" (VString "\w+") ∅
     = (Panicked "captureGroups must be a struct, is a string", ∅)).
Proof.
  split.
  - apply (Compile_rejects_non_struct "{{.Name}}" (VPtr (TStruct Values) (Some 0))).
    discriminate.
  - apply (Compile_rejects_non_struct "{{.Name}}" (VString "\w+")). discriminate.
Defined.

(** [TestWrapFieldsInCaptureGroups], "invalid structs". *)
Lemma Compile_rejects_non_string_or_unexported_field_witness :
  Compile "{{.Age}}" (VStruct InvalidFieldType [FInt 0])
    = Err "fields must be strings, Age is a int" ∧
  Compile "{{.name}}"
    (VStruct {| type_name := "typedregexp.UnsetableField";
                type_fields := [stringField "name"] |} [FString ""])
    = Err "fields must be setable, name is read-only".
Proof.
  split.
  - edestruct (Compile_rejects_non_string_or_unexported_field
                 "{{.Age}}" InvalidFieldType [FInt 0] 0
                 {| Name := "Age"; Type_ := FTInt |} (FInt 0)) as [Hkind _].
    + constructor.
    + reflexivity.
    + reflexivity.
    + apply (Hkind 0%Z). reflexivity.
  - edestruct (Compile_rejects_non_string_or_unexported_field
                 "{{.name}}"
                 {| type_name := "typedregexp.UnsetableField";
                    type_fields := [stringField "name"] |} [FString ""] 0
                 (stringField "name") (FString "")) as [_ Hset].
    + constructor.
    + reflexivity.
    + reflexivity.
    + apply (Hset ""); reflexivity.
Defined.

(** [TestWrapFieldsInCaptureGroups], "valid patterns". *)
Lemma wrapFieldsInCaptureGroups_accepts_iff_witness :
  wrapFieldsInCaptureGroups (VStruct CaptureGroups [FString "\w+"; FString "\d+"])
    = Ok (VStruct CaptureGroups
            [FString "(?P<Name>\w+)"; FString "(?P<S0m3th1ng>\d+)"],
          ["Name"; "S0m3th1ng"]).
Proof.
  apply (wrapFieldsInCaptureGroups_accepts_iff
           CaptureGroups [FString "\w+"; FString "\d+"]).
  - reflexivity.
  - split; [|split; reflexivity].
    repeat constructor; apply field_accepted_intro; try by_computation; discriminate.
Defined.

(** An action that is not closed, and a parenthesis that is not closed. *)
Lemma Compile_propagates_template_and_pattern_errors_witness :
  Compile "{{.Name}" (VStruct CaptureGroups [FString "\w+"; FString "\d+"])
    = Err "template: :1: unclosed action" ∧
  Compile "({{.Name}}" (VStruct CaptureGroups [FString "\w+"; FString "\d+"])
    = Err "error parsing `((?P<Name>\w+)`: error parsing regexp: missing closing ): `((?P<Name>\w+)`".
Proof.
  split.
  - edestruct (Compile_propagates_template_and_pattern_errors
                 "{{.Name}" CaptureGroups [FString "\w+"; FString "\d+"]
                 [FString "(?P<Name>\w+)"; FString "(?P<S0m3th1ng>\d+)"]
                 ["Name"; "S0m3th1ng"]) as (Hparse & Hfill & _).
    + by_computation.
    + apply Hfill. apply Hparse. by_computation.
  - edestruct (Compile_propagates_template_and_pattern_errors
                 "({{.Name}}" CaptureGroups [FString "\w+"; FString "\d+"]
                 [FString "(?P<Name>\w+)"; FString "(?P<S0m3th1ng>\d+)"]
                 ["Name"; "S0m3th1ng"]) as (_ & _ & Hpattern).
    + by_computation.
    + apply (Hpattern "((?P<Name>\w+)"
               "error parsing regexp: missing closing ): `((?P<Name>\w+)`");
        by_computation.
Defined.

(** The struct kept by the matcher of [ExampleTypedRegexp_Find]. *)
Lemma Compile_keeps_wrapped_struct_witness :
  captureGroups greeting
    = VStruct Values [FString "(?P<Name>\w+)"; FString "(?P<Age>\d+)"] ∧
  cell_has_type Values [FString "(?P<Name>\w+)"; FString "(?P<Age>\d+)"].
Proof.
  apply (Compile_keeps_wrapped_struct
           "Hi, I'm {{.Name}}. I'm {{.Age}} years old!|I'm {{.Name}}, I'm {{.Age}}."
           Values [FString "\w+"; FString "\d+"] greeting).
  - by apply two_strings_have_type.
  - apply compiled_Ok; by_computation.
Defined.

(** The index of the matcher of [ExampleTypedRegexp_Find]. *)
Lemma Compile_index_sound_and_complete_witness :
  SubexpNames (pattern greeting) = [""; "Name"; "Age"; "Name"; "Age"] ∧
  submatchIndicesByFieldName greeting !! "Name" = Some [1; 3] ∧
  submatchIndicesByFieldName greeting !! "Age" = Some [2; 4] ∧
  (∀ field i,
     i ∈ default [] (submatchIndicesByFieldName greeting !! field) ↔
     field ∈ Name <$> type_fields Values ∧
     SubexpNames (pattern greeting) !! i = Some field) ∧
  (∀ field i,
     i ∈ default [] (submatchIndicesByFieldName greeting !! field) → field ≠ "") ∧
  (∀ field1 field2 i,
     i ∈ default [] (submatchIndicesByFieldName greeting !! field1) →
     i ∈ default [] (submatchIndicesByFieldName greeting !! field2) →
     field1 = field2) ∧
  (∀ field, NoDup (default [] (submatchIndicesByFieldName greeting !! field))) ∧
  (∀ field, submatchIndicesByFieldName greeting !! field ≠ Some []).
Proof.
  split; [by_computation|]. split; [by_computation|]. split; [by_computation|].
  apply (Compile_index_sound_and_complete
           "Hi, I'm {{.Name}}. I'm {{.Age}} years old!|I'm {{.Name}}, I'm {{.Age}}."
           Values [FString "\w+"; FString "\d+"] greeting).
  - by apply two_strings_have_type.
  - apply compiled_Ok; by_computation.
Defined.

(** The second branch of [ExampleTypedRegexp_Find] matches: five submatches,
    and the indices 1 and 3 of [Name] are within them. *)
Lemma resolver_bounds_check_never_fires_witness :
  FindStringSubmatch (pattern greeting) "I'm Sam, I'm 20."
    = ["I'm Sam, I'm 20."; ""; ""; "Sam"; "20"] ∧
  Forall (λ i, is_Some (FindStringSubmatch (pattern greeting)
                          "I'm Sam, I'm 20." !! i))
         (default [] (submatchIndicesByFieldName greeting !! "Name")).
Proof.
  assert (FindStringSubmatch (pattern greeting) "I'm Sam, I'm 20."
          = ["I'm Sam, I'm 20."; ""; ""; "Sam"; "20"]) as Hsub by by_computation.
  split; [exact Hsub|].
  apply (resolver_bounds_check_never_fires
           "Hi, I'm {{.Name}}. I'm {{.Age}} years old!|I'm {{.Name}}, I'm {{.Age}}."
           (VStruct Values [FString "\w+"; FString "\d+"])).
  - apply compiled_Ok; by_computation.
  - rewrite Hsub. discriminate.
Defined.

(** [TestFind_SecondAlternative]: [Name] is ["foo"], the submatch at the
    second index, behind the empty one at the first. *)
Lemma resolver_returns_first_non_empty_submatch_witness :
  findFirstNonEmptySubmatchForField alternatives "Name" ["b foo"; ""; "foo"] = "foo" ∧
  (findFirstNonEmptySubmatchForField alternatives "Name" ["b foo"; ""; "foo"] = "foo" ↔
   ∃ pre i post,
     submatchIndicesByFieldName alternatives !! "Name" = Some (pre ++ i :: post) ∧
     Forall (λ j, ["b foo"; ""; "foo"] !! j = Some "") pre ∧
     ["b foo"; ""; "foo"] !! i = Some "foo").
Proof.
  split; [by_computation|].
  apply (resolver_returns_first_non_empty_submatch
           alternatives "Name" ["b foo"; ""; "foo"] "foo").
  discriminate.
Defined.

(** The scenario with the optional group, on two structs with different
    contents: both end up as [{Name: "foo", Age: ""}]. *)
Lemma Find_result_ignores_previous_fields_witness :
  (Find optionalAge "foo" (VPtr (TStruct Values) (Some 0))
        (oneStruct [FString "Jane Doe"; FString "-1"])).2 !! 0
    = (Find optionalAge "foo" (VPtr (TStruct Values) (Some 0))
            (oneStruct [FString ""; FString "42"])).2 !! 0 ∧
  (Find optionalAge "foo" (VPtr (TStruct Values) (Some 0))
        (oneStruct [FString "Jane Doe"; FString "-1"])).2 !! 0
    = Some ((λ f, FString (findFirstNonEmptySubmatchForField optionalAge (Name f)
                             (FindStringSubmatch (pattern optionalAge) "foo")))
              <$> type_fields Values).
Proof.
  apply (Find_result_ignores_previous_fields
           "{{.Name}}( {{.Age}})?" Values [FString "\w+"; FString "\d+"]
           optionalAge "foo" 0
           [FString "Jane Doe"; FString "-1"] [FString ""; FString "42"]).
  - by apply two_strings_have_type.
  - apply compiled_Ok; by_computation.
  - by_computation.
  - by apply two_strings_have_type.
  - by_computation.
  - by apply two_strings_have_type.
  - assert (FindStringSubmatch (pattern optionalAge) "foo" = ["foo"; "foo"; ""; ""])
      as -> by by_computation.
    discriminate.
Defined.

(** [ExampleTypedRegexp_Find], twice. *)
Lemma Find_twice_witness :
  Find greeting "Hi, I'm Sam. I'm 20 years old!" (VPtr (TStruct Values) (Some 0))
       (Find greeting "Hi, I'm Sam. I'm 20 years old!"
             (VPtr (TStruct Values) (Some 0))
             (oneStruct [FString ""; FString ""])).2
    = Find greeting "Hi, I'm Sam. I'm 20 years old!"
           (VPtr (TStruct Values) (Some 0)) (oneStruct [FString ""; FString ""]).
Proof.
  apply (Find_twice
           "Hi, I'm {{.Name}}. I'm {{.Age}} years old!|I'm {{.Name}}, I'm {{.Age}}."
           Values [FString "\w+"; FString "\d+"] greeting
           "Hi, I'm Sam. I'm 20 years old!" 0 [FString ""; FString ""]).
  - by apply two_strings_have_type.
  - apply compiled_Ok; by_computation.
  - by_computation.
  - by apply two_strings_have_type.
Defined.

(** A nil [*Values]: false without a match, a panic with one. *)
Lemma Find_on_nil_pointer_witness :
  Find greeting "I'll ask the questions." (VPtr (TStruct Values) None) ∅
    = (Returned false, ∅) ∧
  Find greeting "Hi, I'm Sam. I'm 20 years old!" (VPtr (TStruct Values) None) ∅
    = (Panicked "reflect: call of reflect.Value.NumField on zero Value", ∅).
Proof.
  assert (Compile
            "Hi, I'm {{.Name}}. I'm {{.Age}} years old!|I'm {{.Name}}, I'm {{.Age}}."
            (VStruct Values [FString "\w+"; FString "\d+"])
          = Ok greeting) as Hc by (apply compiled_Ok; by_computation).
  split.
  - apply (proj1 (Find_on_nil_pointer _ _ _ _ "I'll ask the questions." ∅ Hc)).
    by_computation.
  - apply (proj2 (Find_on_nil_pointer _ _ _ _ "Hi, I'm Sam. I'm 20 years old!" ∅ Hc)).
    assert (FindStringSubmatch (pattern greeting) "Hi, I'm Sam. I'm 20 years old!"
            = ["Hi, I'm Sam. I'm 20 years old!"; "Sam"; "20"; ""; ""])
      as -> by by_computation.
    discriminate.
Defined.

(** [TestFindAll], "find one", beside [TestFind_MultipleMatches]. *)
Lemma FindAll_of_one_slot_is_Find_witness :
  FindStringSubmatch (pattern alternatives) "a foo b bar" = ["a foo"; "foo"; ""] ∧
  FindAllStringSubmatch (pattern alternatives) "a foo b bar" 1
    = [["a foo"; "foo"; ""]] ∧
  ∃ (found : bool) (h' : Heap),
    Find alternatives "a foo b bar" (VPtr (TStruct CaptureGroups) (Some 0))
         (oneStruct [FString ""; FString ""]) = (Returned found, h') ∧
    FindAll alternatives "a foo b bar"
         (VSlice (TPtr (TStruct CaptureGroups)) [EPtr (Some 0)])
         (oneStruct [FString ""; FString ""])
      = (Returned (if found then 1 else 0), h') ∧
    FindAll alternatives "a foo b bar"
         (VSlice (TStruct CaptureGroups) [EStruct 0])
         (oneStruct [FString ""; FString ""])
      = (Returned (if found then 1 else 0), h').
Proof.
  split; [by_computation|]. split; [by_computation|].
  apply (FindAll_of_one_slot_is_Find
           "a {{.Name}}|b {{.Name}}" CaptureGroups [FString "\w+"; FString "\d+"]
           alternatives "a foo b bar" 0 [FString ""; FString ""]).
  - by apply two_strings_have_type.
  - apply compiled_Ok; by_computation.
  - by_computation.
  - by apply two_strings_have_type.
  - by_computation.
Defined.

(** Two slots and one match: the first slot is filled, the second one is
    kept. *)
Lemma FindAll_fills_prefix_and_keeps_rest_witness :
  FindAllStringSubmatch (pattern alternatives) "a foo" 2 = [["a foo"; "foo"; ""]] ∧
  ∃ h',
    FindAll alternatives "a foo"
      (VSlice (TStruct CaptureGroups) [EStruct 0; EStruct 1])
      (twoStructs [FString ""; FString ""] [FString "kept"; FString "7"])
      = (Returned 1, h') ∧
    h' !! 0 = Some (resolvedFields alternatives ["a foo"; "foo"; ""]) ∧
    h' !! 1 = Some [FString "kept"; FString "7"].
Proof.
  assert (FindAllStringSubmatch (pattern alternatives) "a foo" 2
          = [["a foo"; "foo"; ""]]) as Hall by by_computation.
  split; [exact Hall|].
  destruct (FindAll_fills_prefix_and_keeps_rest
              "a {{.Name}}|b {{.Name}}" CaptureGroups [FString "\w+"; FString "\d+"]
              alternatives "a foo" (TStruct CaptureGroups) [EStruct 0; EStruct 1]
              (twoStructs [FString ""; FString ""] [FString "kept"; FString "7"]))
    as (h' & Hret & _ & Hfill & Hrest).
  - by apply two_strings_have_type.
  - apply compiled_Ok; by_computation.
  - by left.
  - repeat constructor; try discriminate.
    + intros p [= <-]. exists [FString ""; FString ""].
      split; [by_computation|]. apply two_strings_ready. by_computation.
    + intros p [= <-]. exists [FString "kept"; FString "7"].
      split; [by_computation|]. apply two_strings_ready. by_computation.
  - unfold slots_distinct. simpl. apply (bool_decide_unpack _). by_computation.
  - change (Z.of_nat (length [EStruct 0; EStruct 1])) with 2%Z in *.
    rewrite Hall in *. exists h'. split; [exact Hret|]. split.
    + by apply (Hfill 0 (EStruct 0) 0 ["a foo"; "foo"; ""]).
    + transitivity
        (twoStructs [FString ""; FString ""] [FString "kept"; FString "7"] !! 1);
        [|by_computation].
      apply (Hrest 1 (EStruct 1) 1); [reflexivity|reflexivity|simpl; lia].
Defined.

(** One struct of type [CaptureGroups], through a pointer and in a slice. *)
Lemma Find_and_FindAll_keep_structs_well_typed_witness :
  (∀ q c,
     (Find alternatives "b foo" (VPtr (TStruct CaptureGroups) (Some 0))
           (oneStruct [FString ""; FString ""])).2 !! q = Some c →
     cell_has_type CaptureGroups c) ∧
  (∀ q c,
     (FindAll alternatives "b foo" (VSlice (TStruct CaptureGroups) [EStruct 0])
              (oneStruct [FString ""; FString ""])).2 !! q = Some c →
     cell_has_type CaptureGroups c).
Proof.
  apply (Find_and_FindAll_keep_structs_well_typed
           "a {{.Name}}|b {{.Name}}" CaptureGroups [FString "\w+"; FString "\d+"]
           alternatives "b foo" 0 [FString ""; FString ""]
           (TStruct CaptureGroups) [EStruct 0]).
  - by apply two_strings_have_type.
  - apply compiled_Ok; by_computation.
  - intros q c Hq. unfold oneStruct in Hq.
    apply lookup_singleton_Some in Hq as [_ <-]. by apply two_strings_have_type.
  - by_computation.
  - by left.
  - repeat constructor; try discriminate. intros q [= <-].
    exists [FString ""; FString ""]. by_computation.
Defined.
